(** * arc_unpacker: the KID "lnd" codec, the Kirikiri XP3 container parser
      and the FSN filter

    A shallow embedding of

    - [src/fmt/kid/lnd_file_decoder.cc]
    - [src/fmt/kirikiri/xp3_archive_decoder.cc]
    - [src/formats/arc/xp3_archive/xp3_filter_fsn.cc]

    Bytes are integers ([Z], a [u8] holds a value in [0, 256)); buffers are
    lists indexed with stdpp's lookup [!!] and updated with [<[i:=x]>].
    Pointers into a buffer are indices into the list. *)

From Stdlib Require Import ZArith String Lia.
From stdpp Require Import base tactics option list numbers.

Local Open Scope Z_scope.

(** A conjunction of three. *)
Ltac split3 := split; [| split].

(** ** Machine arithmetic shared by the three files *)

(** Truncation of an [int] to [u8], as done by a store through a [u8*]. *)
Definition u8 (x : Z) : Z := x mod 256.

(** C++ truthiness of an integer used as a condition. *)
Definition nonzero (x : Z) : bool := negb (x =? 0).

(** ** The collaborators the three files are written against *)

(** Modelled from the spec: the error taxonomy of [err.h], which is outside
    the files at hand.  [CorruptDataError] carries its diagnostic message;
    [EofError] is what the binary cursor raises; the inflate primitive and
    the text converter fail with errors of their own. *)
Inductive error :=
| CorruptDataError (what : string)
| EofError
| InflateError
| EncodingError.

(** A call returns or throws. *)
Inductive result (A : Type) :=
| Ok (a : A)
| Err (e : error).
Arguments Ok {A} a.
Arguments Err {A} e.

(** A computation that reads and moves cursors kept in a state of type [S]
    and returns or throws. *)
Definition St (S A : Type) : Type := S -> result (A * S).

Definition ret {S A} (a : A) : St S A := fun s => Ok (a, s).

Definition bind {S A B} (m : St S A) (k : A -> St S B) : St S B :=
  fun s => match m s with
           | Ok (a, s') => k a s'
           | Err e => Err e
           end.

Definition throw {S A} (e : error) : St S A := fun _ => Err e.

Notation "x <- m ;; k" := (bind m (fun x => k))
  (at level 60, m at next level, right associativity).
Notation "m ;;; k" := (bind m (fun _ => k))
  (at level 60, right associativity).

(** [File]: a name and the content behind its [io]. *)
Record File := { name : list Z; content : list Z }.

Module Io.

(** Modelled from the spec: the Binary Cursor ([io::IO], [io::BufferedIO]),
    "sequential/random-access byte source supporting seek, skip, fixed-width
    little-endian integer reads, fixed-length reads, and read-to-end".  It is
    a byte buffer and a position in it; an operation that would leave the
    buffer throws [EofError] and leaves the cursor alone. *)
Record io := { data : list Z; pos : nat }.

(** A computation on one cursor. *)
Definition M (A : Type) : Type := St io A.

Definition size (c : io) : nat := length (data c).

Definition tell : M nat := fun c => Ok (pos c, c).

Definition seek (offset : nat) : M unit :=
  fun c => if (offset <=? size c)%nat
           then Ok (tt, {| data := data c; pos := offset |})
           else Err EofError.

Definition skip (n : nat) : M unit := fun c => seek (pos c + n) c.

Definition read (n : nat) : M (list Z) :=
  fun c => if (pos c + n <=? size c)%nat
           then Ok (take n (drop (pos c) (data c)),
                    {| data := data c; pos := (pos c + n)%nat |})
           else Err EofError.

Definition read_to_eof : M (list Z) :=
  fun c => Ok (drop (pos c) (data c), {| data := data c; pos := size c |}).

(** The value of a little-endian byte string. *)
Definition le (bytes : list Z) : Z := foldr (fun b acc => b + 256 * acc) 0 bytes.

Definition read_le (width : nat) : M Z :=
  bind (read width) (fun bytes => ret (le bytes)).

Definition read_u8 : M Z := read_le 1.
Definition read_u16_le : M Z := read_le 2.
Definition read_u32_le : M Z := read_le 4.
Definition read_u64_le : M Z := read_le 8.

(** [write]: the bytes replace what lies under the cursor and extend the
    buffer when they reach past its end. *)
Definition write (bytes : list Z) : M unit :=
  fun c => Ok (tt, {| data := take (pos c) (data c) ++ bytes ++
                              drop (pos c + length bytes) (data c);
                      pos := (pos c + length bytes)%nat |}).

(** [BufferedIO(bytes)]: a fresh cursor at the start of [bytes]. *)
Definition BufferedIO (bytes : list Z) : io := {| data := bytes; pos := 0%nat |}.

End Io.

(** ** [fmt/kid/lnd_file_decoder.cc] *)

Module Lnd.

(** [static const bstr magic = "lnd\x00"_b] *)
Definition magic : list Z := [108; 110; 100; 0].

(** The local variables of [decompress_raw_data].  The two pointers are kept
    as offsets from the start of their buffer.  [in_reads] and [out_writes]
    are instrumentation: the offsets at which the input was read and the
    output was written, oldest first. *)
Record state := State {
  output : list Z;
  output_ptr : nat;
  input_ptr : nat;
  in_reads : list nat;
  out_writes : list nat
}.

Section Decompress.

(** A read through a pointer that has left its buffer has no value defined by
    the language.  The embedding keeps every input read visible in
    [in_reads] and lets a read outside a buffer return whatever these two
    functions supply, so each statement below holds for every value such a
    read may yield. *)
Variable stray_in : nat -> Z.
Variable stray_out : Z -> Z.

Variable input : list Z.
Variable size_orig : nat.

(** Modelled from the spec: the [bstr] type, declared outside the files at
    hand.  [bstr output(size_orig)] is taken to yield [size_orig] bytes, all
    zero. *)
Definition bstr_sized (n : nat) : list Z := replicate n 0.

Definition init : state :=
  {| output := bstr_sized size_orig; output_ptr := 0%nat; input_ptr := 0%nat;
     in_reads := []; out_writes := [] |}.

(** The byte at offset [i] of the input. *)
Definition input_at (i : nat) : Z := default (stray_in i) (input !! i).

(** [input_ptr[i]] *)
Definition peek (i : nat) (s : state) : Z * state :=
  (input_at (i + input_ptr s),
   {| output := output s; output_ptr := output_ptr s; input_ptr := input_ptr s;
      in_reads := in_reads s ++ [(i + input_ptr s)%nat];
      out_writes := out_writes s |}).

(** [input_ptr += n] *)
Definition advance (n : nat) (s : state) : state :=
  {| output := output s; output_ptr := output_ptr s;
     input_ptr := (n + input_ptr s)%nat;
     in_reads := in_reads s; out_writes := out_writes s |}.

(** [*input_ptr++] *)
Definition read_next (s : state) : Z * state :=
  let '(b, s') := peek 0 s in (b, advance 1 s').

(** [*output_ptr] *)
Definition current (s : state) : Z := default 0 (output s !! output_ptr s).

(** [output_ptr[-k]] *)
Definition look_back (k : Z) (s : state) : Z :=
  let j := Z.of_nat (output_ptr s) - k in
  if 0 <=? j then default (stray_out j) (output s !! Z.to_nat j)
  else stray_out j.

(** [*output_ptr++ = v] *)
Definition emit (v : Z) (s : state) : state :=
  {| output := <[output_ptr s := v]> (output s);
     output_ptr := S (output_ptr s);
     input_ptr := input_ptr s;
     in_reads := in_reads s;
     out_writes := out_writes s ++ [output_ptr s] |}.

(** [output_ptr >= output_end] *)
Definition output_full (s : state) : bool := (size_orig <=? output_ptr s)%nat.

(** Lines 29-34: the loop of the fill-run. *)
Fixpoint fill_loop (n : nat) (s : state) : state :=
  match n with
  | O => s
  | S n' =>
      if output_full s then s
      else let '(v, s1) := peek 0 s in fill_loop n' (emit v s1)
  end.

(** Lines 24-36. *)
Definition fill_run (byte : Z) (s : state) : state :=
  let repetitions := Z.land byte 0x1F + 2 in
  let '(repetitions, s) :=
    if nonzero (Z.land byte 0x20)
    then let '(e, s1) := read_next s in (repetitions + Z.shiftl e 5, s1)
    else (repetitions, s) in
  advance 1 (fill_loop (Z.to_nat repetitions) s).

(** Lines 43-49: [tmp] is fetched before the output is tested. *)
Fixpoint copy_loop (look_behind : Z) (n : nat) (s : state) : state :=
  match n with
  | O => s
  | S n' =>
      let tmp := look_back look_behind s in
      if output_full s then s
      else copy_loop look_behind n' (emit tmp s)
  end.

(** Lines 38-50. *)
Definition back_reference (byte : Z) (s : state) : state :=
  let size := Z.land (Z.shiftr byte 2) 0xF + 2 in
  let '(b, s) := read_next s in
  let look_behind := Z.shiftl (Z.land byte 3) 8 + b + 1 in
  let look_behind := if look_behind <? 0 then 0 else look_behind in
  copy_loop look_behind (Z.to_nat size) s.

(** Lines 59-64: the inner loop, [i] running over [i, i + n). *)
Fixpoint blend_window (i n : nat) (s : state) : state :=
  match n with
  | O => s
  | S n' =>
      if output_full s then s
      else let '(v, s1) := peek i s in
           blend_window (S i) n' (emit (u8 (current s1 + v)) s1)
  end.

(** Lines 58-64: the outer loop. *)
Fixpoint blend_loop (repetitions size : nat) (s : state) : state :=
  match repetitions with
  | O => s
  | S r => blend_loop r size (blend_window 0 size s)
  end.

(** Lines 55-66. *)
Definition blend (byte : Z) (s : state) : state :=
  let '(b, s) := read_next s in
  let repetitions := b + 1 in
  let size := Z.land byte 0x3F + 2 in
  advance (Z.to_nat size)
    (blend_loop (Z.to_nat repetitions) (Z.to_nat size) s).

(** Lines 72-77. *)
Fixpoint literal_loop (n : nat) (s : state) : state :=
  match n with
  | O => s
  | S n' =>
      if output_full s then s
      else let '(v, s1) := read_next s in literal_loop n' (emit v s1)
  end.

(** Lines 68-78. *)
Definition literal (byte : Z) (s : state) : state :=
  let size := Z.land byte 0x1F + 1 in
  let '(size, s) :=
    if nonzero (Z.land byte 0x20)
    then let '(e, s1) := read_next s in (size + Z.shiftl e 5, s1)
    else (size, s) in
  literal_loop (Z.to_nat size) s.

(** Lines 21-79: the body of the [while]. *)
Definition step (s : state) : state :=
  let '(byte, s) := read_next s in
  if nonzero (Z.land byte 0x80) then
    if nonzero (Z.land byte 0x40) then fill_run byte s
    else back_reference byte s
  else
    if nonzero (Z.land byte 0x40) then blend byte s
    else literal byte s.

(** Line 19: [output_ptr < output_end && input_ptr < input_end]. *)
Definition running (s : state) : bool :=
  (output_ptr s <? size_orig)%nat && (input_ptr s <? length input)%nat.

(** The [while] loop.  Every turn consumes the control byte, so
    [length input] turns are enough ([run_exits] below). *)
Fixpoint run (fuel : nat) (s : state) : state :=
  match fuel with
  | O => s
  | S fuel' => if running s then run fuel' (step s) else s
  end.

(** The state at [return output]. *)
Definition decompress_final : state := run (length input) init.

(** Lines 10-83. *)
Definition decompress_raw_data : list Z := output decompress_final.

End Decompress.

Section Decoder.

Variable stray_in : nat -> Z.
Variable stray_out : Z -> Z.

(** Lines 85-88. *)
Definition is_recognized_impl : Io.M bool :=
  bytes <- Io.read (length magic) ;;
  ret (bool_decide (bytes = magic)).

(** Lines 90-99, for the file called [file_name]. *)
Definition decode_impl (file_name : list Z) : Io.M File :=
  Io.seek (length magic) ;;;
  Io.skip 4 ;;;
  size_orig <- Io.read_u32_le ;;
  Io.skip 4 ;;;
  data <- Io.read_to_eof ;;
  let data := decompress_raw_data stray_in stray_out data (Z.to_nat size_orig) in
  ret {| name := file_name; content := data |}.

End Decoder.

End Lnd.

(** ** [fmt/kirikiri/xp3_archive_decoder.cc] *)

Module Xp3.

(** Lines 14-20. *)
Record InfoChunk := {
  flags : Z;
  file_size_original : Z;
  file_size_compressed : Z;
  info_name : list Z
}.

(** Lines 23-27: ["XP3\r\n\x20\x0A\x1A\x8B\x67\x01"], ["File"], ["adlr"],
    ["info"], ["segm"]. *)
Definition xp3_magic : list Z := [88; 80; 51; 13; 10; 32; 10; 26; 139; 103; 1].
Definition file_magic : list Z := [70; 105; 108; 101].
Definition adlr_magic : list Z := [97; 100; 108; 114].
Definition info_magic : list Z := [105; 110; 102; 111].
Definition segm_magic : list Z := [115; 101; 103; 109].

(** The two cursors [read_file] and [read_data_from_segm_chunk] work on. *)
Record cursors := { table_io : Io.io; arc_io : Io.io }.

Definition on_table {A} (m : Io.M A) : St cursors A :=
  fun c => match m (table_io c) with
           | Ok (a, t) => Ok (a, {| table_io := t; arc_io := arc_io c |})
           | Err e => Err e
           end.

Definition on_arc {A} (m : Io.M A) : St cursors A :=
  fun c => match m (arc_io c) with
           | Ok (a, r) => Ok (a, {| table_io := table_io c; arc_io := r |})
           | Err e => Err e
           end.

(** Lines 29-38. *)
Definition detect_version : Io.M Z :=
  old_pos <- Io.tell ;;
  Io.seek 19 ;;;
  marker <- Io.read_u32_le ;;
  let version := if marker =? 1 then 2 else 1 in
  Io.seek old_pos ;;;
  ret version.

(** Lines 40-54. *)
Definition get_table_offset (version : Z) : Io.M Z :=
  if version =? 1 then Io.read_u64_le
  else
    additional_header_offset <- Io.read_u64_le ;;
    minor_version <- Io.read_u32_le ;;
    if negb (minor_version =? 1)
    then throw (CorruptDataError "Unexpected XP3 version")
    else
      Io.seek (Z.to_nat additional_header_offset) ;;;
      Io.skip 1 ;;;
      Io.skip 8 ;;;
      Io.read_u64_le.

Section Decoder.

(** [util::pack::zlib_inflate] and [util::convert_encoding] from UTF-16LE to
    UTF-8: library calls, [None] when they throw. *)
Variable zlib_inflate : list Z -> option (list Z).
Variable utf16le_to_utf8 : list Z -> option (list Z).

(** The decoder the filter registry installs for an archive name, if any. *)
Variable set_decoder : list Z -> option (list Z -> Z -> list Z).

Definition inflate {S} (bytes : list Z) : St S (list Z) :=
  match zlib_inflate bytes with
  | Some out => ret out
  | None => throw InflateError
  end.

(** Lines 56-68. *)
Definition read_raw_table : Io.M Io.io :=
  flag <- Io.read_u8 ;;
  let use_zlib := nonzero flag in
  size_compressed <- Io.read_u64_le ;;
  size_original <- (if use_zlib then Io.read_u64_le else ret size_compressed) ;;
  data <- Io.read (Z.to_nat size_compressed) ;;
  data <- (if use_zlib then inflate data else ret data) ;;
  ret (Io.BufferedIO data).

(** Lines 70-85. *)
Definition read_info_chunk : Io.M InfoChunk :=
  magic <- Io.read (length info_magic) ;;
  if bool_decide (magic <> info_magic)
  then throw (CorruptDataError "Expected INFO chunk")
  else
    info_chunk_size <- Io.read_u64_le ;;
    flags <- Io.read_u32_le ;;
    file_size_original <- Io.read_u64_le ;;
    file_size_compressed <- Io.read_u64_le ;;
    file_name_size <- Io.read_u16_le ;;
    name <- Io.read (Z.to_nat file_name_size * 2) ;;
    match utf16le_to_utf8 name with
    | None => throw EncodingError
    | Some name =>
        ret {| flags := flags; file_size_original := file_size_original;
               file_size_compressed := file_size_compressed;
               info_name := name |}
    end.

(** Lines 99-115: one turn of the [while] of [read_data_from_segm_chunk];
    the result is what the turn appends to [full_data]. *)
Definition read_segment : St cursors (list Z) :=
  segm_flags <- on_table Io.read_u32_le ;;
  data_offset <- on_table Io.read_u64_le ;;
  data_size_original <- on_table Io.read_u64_le ;;
  data_size_compressed <- on_table Io.read_u64_le ;;
  on_arc (Io.seek (Z.to_nat data_offset)) ;;;
  let use_zlib := Z.land segm_flags 7 >? 0 in
  if use_zlib then
    data_compressed <- on_arc (Io.read (Z.to_nat data_size_compressed)) ;;
    inflate data_compressed
  else
    on_arc (Io.read (Z.to_nat data_size_original)).

(** Lines 97-116.  A turn takes 28 bytes of the table, so as many turns as
    the table has bytes left are enough; were they used up, the table would
    have none left for one more turn. *)
Fixpoint segm_loop (fuel : nat) (segm_chunk_size : Z) (initial_pos : nat)
    (full_data : list Z) : St cursors (list Z) :=
  fun c =>
    if segm_chunk_size >? Z.of_nat (Io.pos (table_io c) - initial_pos) then
      match fuel with
      | O => Err EofError
      | S fuel' =>
          (data <- read_segment ;;
           segm_loop fuel' segm_chunk_size initial_pos (full_data ++ data)) c
      end
    else Ok (full_data, c).

(** Lines 87-119. *)
Definition read_data_from_segm_chunk : St cursors (list Z) :=
  magic <- on_table (Io.read (length segm_magic)) ;;
  if bool_decide (magic <> segm_magic)
  then throw (CorruptDataError "Expected SEGM chunk")
  else
    segm_chunk_size <- on_table Io.read_u64_le ;;
    if nonzero (segm_chunk_size mod 28)
    then throw (CorruptDataError "Unexpected SEGM chunk size")
    else
      initial_pos <- on_table Io.tell ;;
      fun c => segm_loop (Io.size (table_io c) - Io.pos (table_io c))
                         segm_chunk_size initial_pos [] c.

(** Lines 121-131. *)
Definition read_key_from_adlr_chunk : Io.M Z :=
  magic <- Io.read (length adlr_magic) ;;
  if bool_decide (magic <> adlr_magic)
  then throw (CorruptDataError "Expected ADLR chunk")
  else
    adlr_chunk_size <- Io.read_u64_le ;;
    if negb (adlr_chunk_size =? 4)
    then throw (CorruptDataError "Unexpected ADLR chunk size")
    else Io.read_u32_le.

(** Lines 133-157. *)
Definition read_file (filter_func : option (list Z -> Z -> list Z))
  : St cursors File :=
  magic <- on_table (Io.read (length file_magic)) ;;
  if bool_decide (magic <> file_magic)
  then throw (CorruptDataError "Expected FILE chunk")
  else
    file_chunk_size <- on_table Io.read_u64_le ;;
    file_chunk_start_offset <- on_table Io.tell ;;
    info_chunk <- on_table read_info_chunk ;;
    data <- read_data_from_segm_chunk ;;
    key <- on_table read_key_from_adlr_chunk ;;
    position <- on_table Io.tell ;;
    if negb (Z.of_nat (position - file_chunk_start_offset) =? file_chunk_size)
    then throw (CorruptDataError "Unexpected file data size")
    else
      let data := match filter_func with
                  | Some decode => decode data key
                  | None => data
                  end in
      ret {| name := info_name info_chunk; content := data |}.

(** Lines 203-204: the [while] of [unpack_internal], [saved] being what the
    saver has received so far.  An entry takes at least one byte of the
    table, so as many turns as the table has bytes left are enough. *)
Fixpoint unpack_loop (fuel : nat)
    (filter_func : option (list Z -> Z -> list Z))
    (c : cursors) (saved : list File) : list File * option error :=
  match fuel with
  | O => (saved, None)
  | S fuel' =>
      if (Io.pos (table_io c) <? Io.size (table_io c))%nat then
        match read_file filter_func c with
        | Ok (file, c') => unpack_loop fuel' filter_func c' (saved ++ [file])
        | Err e => (saved, Some e)
        end
      else (saved, None)
  end.

(** Lines 191-205, for the archive called [arc_name]: the files handed to
    the saver, and the error thrown if any. *)
Definition unpack_internal (arc_name : list Z) (arc : Io.io)
  : list File * option error :=
  let header :=
    Io.skip (length xp3_magic) ;;;
    version <- detect_version ;;
    table_offset <- get_table_offset version ;;
    Io.seek (Z.to_nat table_offset) ;;;
    read_raw_table in
  match header arc with
  | Err e => ([], Some e)
  | Ok (table, arc') =>
      unpack_loop (Io.size table) (set_decoder arc_name)
                  {| table_io := table; arc_io := arc' |} []
  end.

End Decoder.

(** Lines 186-189. *)
Definition is_recognized_internal : Io.M bool :=
  bytes <- Io.read (length xp3_magic) ;;
  ret (bool_decide (bytes = xp3_magic)).

End Xp3.

(** ** [formats/arc/xp3_archive/xp3_filter_fsn.cc] *)

Module Fsn.

(** Lines 12-13. *)
Fixpoint xor_loop (i n : nat) (ptr : list Z) : list Z :=
  match n with
  | O => ptr
  | S n' => xor_loop (S i) n' (alter (fun c => Z.lxor c 0x36) i ptr)
  end.

(** Lines 4-23; the second argument is the key, which has no name in the
    source. *)
Definition decode (key : Z) : Io.M unit :=
  fun file =>
    let size := Io.size file in
    (Io.seek 0 ;;;
     ptr <- Io.read size ;;
     let ptr := xor_loop 0 size ptr in
     let ptr := if (Z.to_nat 0x2ea29 <? size)%nat
                then alter (fun c => Z.lxor c 3) (Z.to_nat 0x2ea29) ptr
                else ptr in
     let ptr := if (0x13 <? size)%nat
                then alter (fun c => Z.lxor c 1) 0x13%nat ptr
                else ptr in
     Io.seek 0 ;;;
     Io.write ptr) file.

End Fsn.

(** * Vocabulary of the statements *)

(** ** The cursor *)

Module IoSpec.

Section Vocabulary.

Local Open Scope nat_scope.

(** The cursor moved by [n] bytes. *)
Definition moved (n : nat) (c : Io.io) : Io.io :=
  {| Io.data := Io.data c; Io.pos := Io.pos c + n |}.

(** The [n] bytes found [k] bytes past the cursor. *)
Definition bytes_at (k n : nat) (c : Io.io) : list Z :=
  take n (drop (Io.pos c + k) (Io.data c)).

(** Every cursor operation throws [EofError] or nothing. *)
Definition eof_only {S A} (m : St S A) : Prop :=
  forall s e, m s = Err e -> e = EofError.

End Vocabulary.

End IoSpec.

Import IoSpec.

(** ** The lnd codec *)

Module LndSpec.

Section Vocabulary.

Import Lnd.

Variable stray_in : nat -> Z.
Variable stray_out : Z -> Z.
Variable input : list Z.
Variable size_orig : nat.

Local Open Scope nat_scope.

Local Abbreviation input_at := (Lnd.input_at stray_in input).
Local Abbreviation output_full := (Lnd.output_full size_orig).

(** [wrote s s' n f]: between [s] and [s'] the decoder stored the [n] bytes
    [f 0 .. f (n-1)] at the [n] offsets from [output_ptr s] on, moved
    [output_ptr] past them and touched nothing else of the output. *)
Definition wrote (s s' : state) (n : nat) (f : nat -> Z) : Prop :=
  output_ptr s' = output_ptr s + n /\
  length (output s') = length (output s) /\
  (forall j, j < n -> output s' !! (output_ptr s + j) = Some (f j)) /\
  (forall k, k < output_ptr s \/ output_ptr s + n <= k ->
             output s' !! k = output s !! k) /\
  out_writes s' = out_writes s ++ seq (output_ptr s) n.

(** How many bytes a loop asked to store [n] bytes does store. *)
Definition stored (n : nat) (s : state) : nat :=
  Nat.min n (size_orig - output_ptr s).

(** [reads_within s s' lo hi]: between [s] and [s'] the decoder read the
    input only at offsets of [lo, hi). *)
Definition reads_within (s s' : state) (lo hi : nat) : Prop :=
  exists l, in_reads s' = in_reads s ++ l /\ Forall (fun i => lo <= i < hi) l.

(** The byte the blend leaves at offset [output_ptr s + j] when it adds the
    input byte found [k] bytes after [input_ptr s]. *)
Definition blended (s : state) (j k : nat) : Z :=
  u8 (default 0%Z (output s !! (output_ptr s + j)) + input_at (k + input_ptr s)).

(** Number of bytes of the optional length extension. *)
Definition ext_bytes (byte : Z) : nat :=
  if nonzero (Z.land byte 0x20) then 1 else 0.

(** Run length of a fill-run, [e] being the byte after the control byte. *)
Definition fill_length (byte e : Z) : nat :=
  Z.to_nat (Z.land byte 0x1F + 2 +
            if nonzero (Z.land byte 0x20) then Z.shiftl e 5 else 0).

(** Length of a literal copy, [e] being the byte after the control byte. *)
Definition literal_length (byte e : Z) : nat :=
  Z.to_nat (Z.land byte 0x1F + 1 +
            if nonzero (Z.land byte 0x20) then Z.shiftl e 5 else 0).

(** Length of a back-reference copy. *)
Definition copy_length (byte : Z) : nat :=
  Z.to_nat (Z.land (Z.shiftr byte 2) 0xF + 2).

(** Block size and repeat count of an additive blend, [b] being the byte
    after the control byte. *)
Definition block_size (byte : Z) : nat := Z.to_nat (Z.land byte 0x3F + 2).

Definition repeat_count (b : Z) : nat := Z.to_nat (b + 1).

(** The state once the control byte has been fetched. *)
Definition fetched (s : state) : state :=
  advance 1 (snd (peek stray_in input 0 s)).

(** The buffer keeps its allocated size, the output pointer stays inside it,
    the offsets written so far are exactly those below the output pointer,
    and the bytes from the output pointer on are still the zero bytes of the
    fresh buffer. *)
Definition inv (s : state) : Prop :=
  length (output s) = size_orig /\
  output_ptr s <= size_orig /\
  out_writes s = seq 0 (output_ptr s) /\
  forall i, output_ptr s <= i -> i < size_orig -> output s !! i = Some 0%Z.

(** The additive blend as the specification words it, for comparison with
    [Lnd.blend]: the window is added onto the same span of the output once
    per repeat, and the output position moves by the block size once, after
    the last repeat.  The result is the output buffer and the output
    position. *)
Fixpoint overlay (window : list Z) (pos : nat) (out : list Z) : list Z :=
  match window with
  | [] => out
  | w :: rest => overlay rest (S pos) (alter (fun x => u8 (x + w)) pos out)
  end.

Definition blend_as_specified (byte : Z) (s : state) : list Z * nat :=
  let repetitions := repeat_count (input_at (input_ptr s)) in
  let size := block_size byte in
  let window := take size (drop (S (input_ptr s)) input) in
  (Nat.iter repetitions (overlay window (output_ptr s)) (output s),
   output_ptr s + size).

(** Number of input bytes that follow the control byte [byte] in its
    operation, [e] being the first of them: the fill value after the optional
    extension; the distance byte; the repeat count and the window; the
    optional extension and the literal bytes. *)
Definition operand_bytes (byte e : Z) : nat :=
  if nonzero (Z.land byte 0x80) then
    if nonzero (Z.land byte 0x40) then ext_bytes byte + 1 else 1
  else
    if nonzero (Z.land byte 0x40) then 1 + block_size byte
    else ext_bytes byte + literal_length byte e.

(** The input is a sequence of whole operations: each control byte is
    followed by all the bytes its operation takes. *)
Fixpoint well_formed_from (fuel : nat) (l : list Z) : bool :=
  match l with
  | [] => true
  | byte :: rest =>
      match fuel with
      | O => false
      | S fuel' =>
          let n := operand_bytes byte (default 0%Z (head rest)) in
          (n <=? length rest) && well_formed_from fuel' (drop n rest)
      end
  end.

Definition well_formed (l : list Z) : bool := well_formed_from (length l) l.

(** What the loop knows about the input still to be decoded. *)
Definition on_boundary (s : state) : Prop :=
  output_full s = true \/
  (input_ptr s <= length input /\
   exists fuel, well_formed_from fuel (drop (input_ptr s) input) = true).

(** What [decode_impl] returns for a file of at least 16 bytes. *)
Definition decoded (file_name : list Z) (file : Io.io) : File :=
  {| name := file_name;
     content := Lnd.decompress_raw_data stray_in stray_out
                  (drop 16 (Io.data file))
                  (Z.to_nat (Io.le (take 4 (drop 8 (Io.data file))))) |}.

End Vocabulary.

End LndSpec.

Import LndSpec.

(** ** The XP3 archive decoder *)

Module Xp3Spec.

Section Vocabulary.

Import Xp3.

Variable zlib_inflate : list Z -> option (list Z).
Variable utf16le_to_utf8 : list Z -> option (list Z).

Local Open Scope nat_scope.

(** [avoids bad m]: [m] never throws [bad]. *)
Definition avoids {S A} (bad : error) (m : St S A) : Prop :=
  forall s, m s <> Err bad.

(** The message of the version check. *)
Definition version_error : error := CorruptDataError "Unexpected XP3 version".

(** What [get_table_offset] does once the minor version has been accepted. *)
Definition follow_additional_header (offset : Z) : Io.M Z :=
  Io.seek (Z.to_nat offset) ;;; Io.skip 1 ;;; Io.skip 8 ;;; Io.read_u64_le.

(** The message of the length check of [read_file]. *)
Definition size_error : error := CorruptDataError "Unexpected file data size".

(** The cursors once the tag and the length of a chunk have been read from
    the table. *)
Definition past_chunk_header (c : cursors) : cursors :=
  {| table_io := moved 12 (table_io c); arc_io := arc_io c |}.

(** [reaches filter_func c0 saved0 c saved]: started with the cursors [c0]
    and the files [saved0] in the saver, the loop of [unpack_internal] comes
    to test its condition with the cursors [c] and the files [saved]. *)
Inductive reaches (filter_func : option (list Z -> Z -> list Z))
  : cursors -> list File -> cursors -> list File -> Prop :=
| reaches_here c saved : reaches filter_func c saved c saved
| reaches_next c saved file c1 c' saved' :
    Io.pos (table_io c) < Io.size (table_io c) ->
    read_file zlib_inflate utf16le_to_utf8 filter_func c = Ok (file, c1) ->
    reaches filter_func c1 (saved ++ [file]) c' saved' ->
    reaches filter_func c saved c' saved'.

(** The [segm] sub-chunk as the specification words it, for comparison with
    [Xp3.read_data_from_segm_chunk]: consecutive 28-byte records of a 4-byte
    flags field, an 8-byte offset into the archive, an 8-byte original size
    and an 8-byte compressed size, each standing for the inflated content of
    [compressed size] bytes at the offset when [flags & 7] is nonzero and
    for the [original size] raw bytes at the offset otherwise. *)
Record segment := {
  seg_flags : Z;
  seg_offset : Z;
  seg_original : Z;
  seg_compressed : Z
}.

Definition parse_segment (bytes : list Z) : segment :=
  {| seg_flags := Io.le (take 4 bytes);
     seg_offset := Io.le (take 8 (drop 4 bytes));
     seg_original := Io.le (take 8 (drop 12 bytes));
     seg_compressed := Io.le (take 8 (drop 20 bytes)) |}.

Fixpoint segments (n : nat) (bytes : list Z) : list segment :=
  match n with
  | O => []
  | S n' => parse_segment bytes :: segments n' (drop 28 bytes)
  end.

(** The [len] bytes at [offset] of the archive, if it has them. *)
Definition slice (arc : list Z) (offset len : Z) : result (list Z) :=
  if Z.to_nat offset + Z.to_nat len <=? length arc
  then Ok (take (Z.to_nat len) (drop (Z.to_nat offset) arc))
  else Err EofError.

Definition segment_data (arc : list Z) (s : segment) : result (list Z) :=
  if nonzero (Z.land (seg_flags s) 7) then
    match slice arc (seg_offset s) (seg_compressed s) with
    | Ok compressed =>
        match zlib_inflate compressed with
        | Some out => Ok out
        | None => Err InflateError
        end
    | Err e => Err e
    end
  else slice arc (seg_offset s) (seg_original s).

Fixpoint concatenation (arc : list Z) (segs : list segment) : result (list Z) :=
  match segs with
  | [] => Ok []
  | s :: rest =>
      match segment_data arc s with
      | Ok d =>
          match concatenation arc rest with
          | Ok ds => Ok (d ++ ds)
          | Err e => Err e
          end
      | Err e => Err e
      end
  end.

(** What a call returns, its cursors left out. *)
Definition returned {S A} (r : result (A * S)) : result A :=
  match r with
  | Ok (a, _) => Ok a
  | Err e => Err e
  end.

(** [grows m]: when [m] returns, the table is the one it was given and its
    cursor has not moved back. *)
Definition grows {A} (m : St cursors A) : Prop :=
  forall c a c', m c = Ok (a, c') ->
    Io.data (table_io c') = Io.data (table_io c) /\
    Io.pos (table_io c) <= Io.pos (table_io c').

Definition grows_io {A} (m : Io.M A) : Prop :=
  forall t a t', m t = Ok (a, t') ->
    Io.data t' = Io.data t /\ Io.pos t <= Io.pos t'.

End Vocabulary.

End Xp3Spec.

Import Xp3Spec.

(** ** The FSN filter *)

Module FsnSpec.

Section Vocabulary.

Local Open Scope nat_scope.

(** What the specification says the filter leaves at offset [i] of a buffer of
    [size] bytes that held [b] there. *)
Definition fsn_byte (size i : nat) (b : Z) : Z :=
  let b := Z.lxor b 0x36 in
  let b := if bool_decide (i = Z.to_nat 0x2EA29 /\ Z.to_nat 0x2EA29 < size)
           then Z.lxor b 3 else b in
  if bool_decide (i = 0x13 /\ 0x13 < size) then Z.lxor b 1 else b.

(** The buffer the filter writes back. *)
Definition fsn_buffer (bytes : list Z) : list Z :=
  let size := length bytes in
  let ptr := Fsn.xor_loop 0 size bytes in
  let ptr := if Z.to_nat 0x2ea29 <? size
             then alter (fun c => Z.lxor c 3) (Z.to_nat 0x2ea29) ptr else ptr in
  if 0x13 <? size then alter (fun c => Z.lxor c 1) 0x13 ptr else ptr.

End Vocabulary.

End FsnSpec.

Import FsnSpec.

(** ** Further vocabulary *)

Module MoreSpec.

Section Vocabulary.

Local Open Scope Z_scope.

(** A value a [u8] can hold. *)
Definition is_byte (x : Z) : Prop := 0 <= x < 256.

(** The look-behind distance of a back-reference, line 40, [b] being the
    byte after the control byte. *)
Definition distance (byte b : Z) : Z := Z.shiftl (Z.land byte 3) 8 + b + 1.

(** An input made of literal-copy operations only, one per chunk: the
    control byte [length chunk - 1], then the chunk. *)
Definition literal_op (chunk : list Z) : list Z :=
  (Z.of_nat (length chunk) - 1) :: chunk.

Definition encode_literals (chunks : list (list Z)) : list Z :=
  concat (map literal_op chunks).

(** Two decompressions of one input, [s] into [n] bytes and [b] into a
    longer buffer, agree so far: the short output is the start of the long
    one, and either both stand at the same place or the short output is
    full. *)
Definition agree_upto (n : nat) (s b : Lnd.state) : Prop :=
  Lnd.output s = take n (Lnd.output b) /\
  ((Lnd.output_ptr s = Lnd.output_ptr b /\
    Lnd.input_ptr s = Lnd.input_ptr b) \/
   (n <= Lnd.output_ptr s /\ n <= Lnd.output_ptr b)%nat).





End Vocabulary.

End MoreSpec.

Import MoreSpec.

(** ** Inputs of the concrete runs *)

(** In the runs below nothing is read outside a buffer unless said so; the
    bytes such reads would return are fixed to zero. *)
Definition zero_in : nat -> Z := fun _ => 0.

Definition zero_out : Z -> Z := fun _ => 0.

(** An input with one operation of each kind. *)
Definition sample : list Z :=
  [0x01; 0x41; 0x42;  0x88; 0x00;  0xC3; 0xFF;  0x40; 0x01; 0x01; 0x02].

(** A file that starts with ["abcd"], announces two bytes and carries them
    as a literal. *)
Definition foreign_file : Io.io :=
  Io.BufferedIO ([97; 98; 99; 100] ++ [0; 0; 0; 0] ++ [2; 0; 0; 0] ++
                 [0; 0; 0; 0] ++ [0x01; 0x41; 0x42]).

(** [width] bytes holding [v], least significant first. *)
Fixpoint le_bytes (width : nat) (v : Z) : list Z :=
  match width with
  | O => []
  | S w => v mod 256 :: le_bytes w (v / 256)
  end.

(** A text converter for the examples: it keeps the low byte of every code
    unit.  No example inflates anything or installs a filter. *)
Fixpoint low_bytes (bytes : list Z) : list Z :=
  match bytes with
  | lo :: _ :: rest => lo :: low_bytes rest
  | _ => []
  end.

Definition toy_utf8 (bytes : list Z) : option (list Z) := Some (low_bytes bytes).

Definition no_inflate (bytes : list Z) : option (list Z) := None.

Definition no_filter (arc_name : list Z) : option (list Z -> Z -> list Z) := None.

(** The table of an archive with one entry, ["a"], made of one stored
    segment of three bytes at offset 23 of the archive; the [File] chunk
    declares [declared] bytes where its sub-chunks take 92. *)
Definition toy_table (declared : Z) : list Z :=
  Xp3.file_magic ++ le_bytes 8 declared ++
  Xp3.info_magic ++ le_bytes 8 22 ++
    le_bytes 4 0 ++ le_bytes 8 3 ++ le_bytes 8 3 ++ le_bytes 2 1 ++ [97; 0] ++
  Xp3.segm_magic ++ le_bytes 8 28 ++
    le_bytes 4 0 ++ le_bytes 8 23 ++ le_bytes 8 3 ++ le_bytes 8 3 ++
  Xp3.adlr_magic ++ le_bytes 8 4 ++ le_bytes 4 0xDEADBEEF.

(** The archive: signature, table offset, four bytes that are not a version
    marker, the segment, and the table, stored. *)
Definition toy_archive (declared : Z) : list Z :=
  Xp3.xp3_magic ++ le_bytes 8 26 ++ [0; 0; 0; 0] ++ [10; 20; 30] ++
  [0] ++ le_bytes 8 104 ++ toy_table declared.

(** The cursors of that unpacking when it reaches the entry. *)
Definition toy_cursors (declared : Z) (table_pos : nat) : Xp3.cursors :=
  {| Xp3.table_io := {| Io.data := toy_table declared; Io.pos := table_pos |};
     Xp3.arc_io := {| Io.data := toy_archive declared; Io.pos := 139 |} |}.

(** An archive whose bytes at offset 19 hold 1, entered four bytes before
    its signature: the minor version is then read at offset 23 and is not
    1. *)
Definition version_two_archive : Io.io :=
  {| Io.data := [0; 0; 0; 0] ++ Xp3.xp3_magic ++ [0; 0; 0; 0] ++
                [1; 0; 0; 0] ++ [2; 0; 0; 0] ++ replicate 16 0;
     Io.pos := 4 |}.

(** * Properties of the lnd codec *)

Section LndFacts.

Import Lnd LndSpec.

Variable stray_in : nat -> Z.
Variable stray_out : Z -> Z.
Variable input : list Z.
Variable size_orig : nat.

Local Open Scope nat_scope.

Local Abbreviation input_at := (Lnd.input_at stray_in input).
Local Abbreviation output_full := (Lnd.output_full size_orig).
Local Abbreviation fill_loop := (Lnd.fill_loop stray_in input size_orig).
Local Abbreviation fill_run := (Lnd.fill_run stray_in input size_orig).
Local Abbreviation copy_loop := (Lnd.copy_loop stray_out size_orig).
Local Abbreviation back_reference := (Lnd.back_reference stray_in stray_out input size_orig).
Local Abbreviation blend_window := (Lnd.blend_window stray_in input size_orig).
Local Abbreviation blend_loop := (Lnd.blend_loop stray_in input size_orig).
Local Abbreviation blend := (Lnd.blend stray_in input size_orig).
Local Abbreviation literal_loop := (Lnd.literal_loop stray_in input size_orig).
Local Abbreviation literal := (Lnd.literal stray_in input size_orig).
Local Abbreviation step := (Lnd.step stray_in stray_out input size_orig).
Local Abbreviation running := (Lnd.running input size_orig).
Local Abbreviation run := (Lnd.run stray_in stray_out input size_orig).
Local Abbreviation stored := (LndSpec.stored size_orig).
Local Abbreviation blended := (LndSpec.blended stray_in input).
Local Abbreviation fetched := (LndSpec.fetched stray_in input).
Local Abbreviation inv := (LndSpec.inv size_orig).
Local Abbreviation on_boundary := (LndSpec.on_boundary input size_orig).

Lemma wrote_nothing s s' f :
  output s' = output s -> output_ptr s' = output_ptr s ->
  out_writes s' = out_writes s -> wrote s s' 0 f.
Proof.
  intros Ho Hp Hw. unfold wrote. rewrite Ho, Hp, Hw. simpl.
  rewrite app_nil_r. repeat split; auto with lia.
Qed.

Lemma wrote_emit v s :
  output_ptr s < length (output s) -> wrote s (emit v s) 1 (fun _ => v).
Proof.
  intros Hlt. unfold wrote, emit; simpl. repeat split.
  - lia.
  - apply length_insert.
  - intros j Hj. replace (output_ptr s + j) with (output_ptr s) by lia.
    now apply list_lookup_insert_eq.
  - intros k Hk. apply list_lookup_insert_ne. lia.
Qed.

Lemma wrote_ext s s' n f g :
  (forall j, j < n -> f j = g j) -> wrote s s' n f -> wrote s s' n g.
Proof.
  intros Hfg (Hp & Hl & Hin & Hout & Hw). repeat split; auto.
  intros j Hj. rewrite <- Hfg by exact Hj. auto.
Qed.

Lemma wrote_trans s1 s2 s3 n1 n2 f1 f2 :
  wrote s1 s2 n1 f1 -> wrote s2 s3 n2 f2 ->
  wrote s1 s3 (n1 + n2)
        (fun j => if j <? n1 then f1 j else f2 (j - n1)).
Proof.
  intros (Hp1 & Hl1 & Hin1 & Hout1 & Hw1) (Hp2 & Hl2 & Hin2 & Hout2 & Hw2).
  repeat split.
  - lia.
  - congruence.
  - intros j Hj. destruct (Nat.ltb_spec j n1) as [Hlt | Hge].
    + rewrite Hout2 by lia. auto.
    + replace (output_ptr s1 + j) with (output_ptr s2 + (j - n1)) by lia.
      apply Hin2. lia.
  - intros k Hk. rewrite Hout2 by lia. apply Hout1. lia.
  - rewrite Hw2, Hw1, Hp1, <- app_assoc. f_equal.
    symmetry. apply seq_app.
Qed.

Lemma reads_none s s' lo hi : in_reads s' = in_reads s -> reads_within s s' lo hi.
Proof. intros H. exists []. rewrite app_nil_r. auto. Qed.

Lemma reads_one s s' lo hi i :
  in_reads s' = in_reads s ++ [i] -> lo <= i < hi -> reads_within s s' lo hi.
Proof. intros H Hi. exists [i]. auto. Qed.

Lemma reads_trans s1 s2 s3 lo hi lo1 hi1 lo2 hi2 :
  reads_within s1 s2 lo1 hi1 -> reads_within s2 s3 lo2 hi2 ->
  lo <= lo1 -> lo <= lo2 -> hi1 <= hi -> hi2 <= hi ->
  reads_within s1 s3 lo hi.
Proof.
  intros (l1 & E1 & F1) (l2 & E2 & F2) ? ? ? ?. exists (l1 ++ l2). split.
  - rewrite E2, E1. now rewrite app_assoc.
  - apply Forall_app. split.
    + eapply Forall_impl; [| exact F1]. simpl; intros; lia.
    + eapply Forall_impl; [| exact F2]. simpl; intros; lia.
Qed.

Lemma reads_weaken s s' lo hi lo' hi' :
  reads_within s s' lo' hi' -> lo <= lo' -> hi' <= hi -> reads_within s s' lo hi.
Proof.
  intros (l & E & F) ? ?. exists l. split; [exact E |].
  eapply Forall_impl; [| exact F]. simpl; intros; lia.
Qed.

Lemma reads_advance s s' lo hi k :
  reads_within s s' lo hi -> reads_within s (advance k s') lo hi.
Proof. unfold reads_within. simpl. auto. Qed.

Lemma wrote_from s0 s s' n f :
  output s = output s0 -> output_ptr s = output_ptr s0 ->
  out_writes s = out_writes s0 -> wrote s s' n f -> wrote s0 s' n f.
Proof. unfold wrote. intros -> -> ->. auto. Qed.

Lemma wrote_advance s s' n f k : wrote s s' n f -> wrote s (advance k s') n f.
Proof. unfold wrote. simpl. auto. Qed.

Lemma stored_full n s : size_orig <= output_ptr s -> stored n s = 0.
Proof. unfold stored. lia. Qed.

Lemma stored_S n s v :
  output_ptr s < size_orig -> stored (S n) s = 1 + stored n (emit v s).
Proof. unfold stored. cbn [emit output_ptr]. lia. Qed.

Lemma stored_le n s : stored n s <= n.
Proof. unfold stored. lia. Qed.

(** One more byte in front of what a loop went on to store. *)
Lemma wrote_cons v s s' n f g :
  output_ptr s < length (output s) ->
  wrote (emit v s) s' n f ->
  g 0 = v -> (forall j, j < n -> g (S j) = f j) ->
  wrote s s' (1 + n) g.
Proof.
  intros Hlt Hw Hg0 HgS.
  eapply wrote_ext; [| exact (wrote_trans _ _ _ _ _ _ _ (wrote_emit v s Hlt) Hw)].
  intros j Hj. simpl. destruct j as [| j]; simpl; [congruence |].
  rewrite Nat.sub_0_r. symmetry. apply HgS. lia.
Qed.

Lemma fill_loop_spec n : forall s,
  length (output s) = size_orig ->
  wrote s (fill_loop n s) (stored n s) (fun _ => input_at (input_ptr s)) /\
  input_ptr (fill_loop n s) = input_ptr s /\
  reads_within s (fill_loop n s) (input_ptr s) (S (input_ptr s)).
Proof.
  induction n as [| n IH]; intros s Hlen; simpl.
  - split3; [now apply wrote_nothing | reflexivity | now apply reads_none].
  - unfold Lnd.output_full.
    destruct (Nat.leb_spec size_orig (output_ptr s)) as [Hfull | Hroom].
    + rewrite stored_full by exact Hfull.
      split3; [now apply wrote_nothing | reflexivity | now apply reads_none].
    + set (s1 := snd (peek stray_in input 0 s)).
      set (v := input_at (input_ptr s)).
      destruct (IH (emit v s1)) as (Hw & Hip & Hrd).
      { simpl. now rewrite length_insert. }
      split3.
      * rewrite (stored_S n s v) by exact Hroom.
        apply (wrote_from s s1); try reflexivity.
        eapply wrote_cons; [simpl; lia | exact Hw | |]; reflexivity.
      * exact Hip.
      * simpl in Hrd.
        assert (R1 : reads_within s (emit v s1) (input_ptr s) (S (input_ptr s))).
        { apply (reads_one _ _ _ _ (input_ptr s)); [reflexivity | lia]. }
        apply (reads_trans _ _ _ _ _ _ _ _ _ R1 Hrd); lia.
Qed.

Lemma copy_loop_spec k n : forall s,
  length (output s) = size_orig ->
  (exists f, wrote s (copy_loop k n s) (stored n s) f) /\
  input_ptr (copy_loop k n s) = input_ptr s /\
  in_reads (copy_loop k n s) = in_reads s.
Proof.
  induction n as [| n IH]; intros s Hlen; simpl.
  - split3; [| reflexivity | reflexivity].
    exists (fun _ => 0%Z). now apply wrote_nothing.
  - unfold Lnd.output_full.
    destruct (Nat.leb_spec size_orig (output_ptr s)) as [Hfull | Hroom].
    + rewrite stored_full by exact Hfull.
      split3; [| reflexivity | reflexivity].
      exists (fun _ => 0%Z). now apply wrote_nothing.
    + set (v := look_back stray_out k s).
      destruct (IH (emit v s)) as ((f & Hw) & Hip & Hrd).
      { simpl. now rewrite length_insert. }
      split3; [| exact Hip | exact Hrd].
      exists (fun j => match j with O => v | S j' => f j' end).
      rewrite (stored_S n s v) by exact Hroom.
      eapply wrote_cons; [lia | exact Hw | reflexivity | reflexivity].
Qed.

Lemma literal_loop_S n s :
  literal_loop (S n) s =
  if output_full s then s
  else literal_loop n (emit (input_at (input_ptr s))
                            (advance 1 (snd (peek stray_in input 0 s)))).
Proof. reflexivity. Qed.

Lemma literal_loop_spec n : forall s,
  length (output s) = size_orig ->
  wrote s (literal_loop n s) (stored n s)
        (fun j => input_at (input_ptr s + j)) /\
  input_ptr (literal_loop n s) = input_ptr s + stored n s /\
  reads_within s (literal_loop n s) (input_ptr s) (input_ptr s + stored n s).
Proof.
  induction n as [| n IH]; intros s Hlen.
  - unfold stored; simpl.
    split3; [now apply wrote_nothing | lia | now apply reads_none].
  - rewrite literal_loop_S. unfold Lnd.output_full.
    destruct (Nat.leb_spec size_orig (output_ptr s)) as [Hfull | Hroom].
    + rewrite stored_full by exact Hfull.
      split3; [now apply wrote_nothing | lia | now apply reads_none].
    + set (s1 := advance 1 (snd (peek stray_in input 0 s))).
      set (v := input_at (input_ptr s)).
      destruct (IH (emit v s1)) as (Hw & Hip & Hrd).
      { simpl. now rewrite length_insert. }
      rewrite (stored_S n s v) by exact Hroom.
      assert (Est : stored n (emit v s1) = stored n (emit v s)) by reflexivity.
      rewrite Est in *. simpl in Hip, Hrd.
      split3.
      * apply (wrote_from s s1); try reflexivity.
        eapply wrote_cons; [simpl; lia | exact Hw | |]; simpl.
        -- now rewrite Nat.add_0_r.
        -- intros j _. f_equal. lia.
      * rewrite Hip. lia.
      * assert (R1 : reads_within s (emit v s1) (input_ptr s) (S (input_ptr s))).
        { apply (reads_one _ _ _ _ (input_ptr s)); [reflexivity | lia]. }
        apply (reads_trans _ _ _ _ _ _ _ _ _ R1 Hrd); lia.
Qed.

Lemma blend_window_S i n s :
  blend_window i (S n) s =
  if output_full s then s
  else blend_window (S i) n
         (emit (u8 (current s + input_at (i + input_ptr s)))
               (snd (peek stray_in input i s))).
Proof. reflexivity. Qed.

Lemma blend_window_spec n : forall i s,
  length (output s) = size_orig ->
  wrote s (blend_window i n s) (stored n s) (fun j => blended s j (i + j)) /\
  input_ptr (blend_window i n s) = input_ptr s /\
  reads_within s (blend_window i n s)
               (input_ptr s + i) (input_ptr s + i + stored n s).
Proof.
  induction n as [| n IH]; intros i s Hlen.
  - split3; [now apply wrote_nothing | reflexivity | now apply reads_none].
  - rewrite blend_window_S. unfold Lnd.output_full.
    destruct (Nat.leb_spec size_orig (output_ptr s)) as [Hfull | Hroom].
    + rewrite stored_full by exact Hfull.
      split3; [now apply wrote_nothing | reflexivity | now apply reads_none].
    + set (s1 := snd (peek stray_in input i s)).
      set (v := u8 (current s + input_at (i + input_ptr s))).
      destruct (IH (S i) (emit v s1)) as (Hw & Hip & Hrd).
      { simpl. now rewrite length_insert. }
      rewrite (stored_S n s v) by exact Hroom.
      assert (Est : stored n (emit v s1) = stored n (emit v s)) by reflexivity.
      rewrite Est in *. simpl in Hip, Hrd.
      split3.
      * apply (wrote_from s s1); try reflexivity.
        eapply wrote_cons; [simpl; lia | exact Hw | |].
        -- unfold blended, v, current. now rewrite !Nat.add_0_r.
        -- intros j _. unfold blended. cbn [emit s1 peek snd output output_ptr input_ptr].
           rewrite list_lookup_insert_ne by lia.
           do 3 f_equal; f_equal; lia.
      * exact Hip.
      * assert (R1 : reads_within s (emit v s1)
                       (input_ptr s + i) (S (input_ptr s + i))).
        { apply (reads_one _ _ _ _ (i + input_ptr s)); [reflexivity | lia]. }
        apply (reads_trans _ _ _ _ _ _ _ _ _ R1 Hrd); lia.
Qed.

Lemma stored_add n m s s' f :
  wrote s s' (stored n s) f -> stored n s + stored m s' = stored (n + m) s.
Proof. intros (Hp & _). unfold stored. rewrite Hp. unfold stored. lia. Qed.

Lemma blend_loop_spec size r : forall s,
  length (output s) = size_orig ->
  wrote s (blend_loop r size s) (stored (r * size) s)
        (fun j => blended s j (j mod size)) /\
  input_ptr (blend_loop r size s) = input_ptr s /\
  reads_within s (blend_loop r size s) (input_ptr s) (input_ptr s + size).
Proof.
  induction r as [| r IH]; intros s Hlen.
  - split3; [now apply wrote_nothing | reflexivity | now apply reads_none].
  - cbn [Lnd.blend_loop].
    destruct (blend_window_spec size 0 s Hlen) as (W1 & Hip1 & R1).
    set (s1 := blend_window 0 size s) in *.
    assert (Hlen1 : length (output s1) = size_orig).
    { destruct W1 as (_ & -> & _). exact Hlen. }
    destruct (IH s1 Hlen1) as (W2 & Hip2 & R2).
    split3.
    + replace (S r * size) with (size + r * size) by reflexivity.
      rewrite <- (stored_add _ _ _ _ _ W1).
      eapply wrote_ext; [| exact (wrote_trans _ _ _ _ _ _ _ W1 W2)].
      intros j Hj. cbn beta.
      destruct W1 as (Hp1 & _ & _ & Hframe & _).
      destruct (Nat.ltb_spec j (stored size s)) as [Hlt | Hge].
      * rewrite Nat.mod_small by (pose proof (stored_le size s); lia).
        reflexivity.
      * assert (Hst : stored size s = size).
        { unfold stored in *. rewrite Hp1 in Hj. unfold stored in Hj. lia. }
        unfold blended. rewrite Hip1, Hp1, Hst, Hframe by lia.
        replace (output_ptr s + size + (j - size)) with (output_ptr s + j) by lia.
        replace (j mod size) with ((j - size) mod size); [reflexivity |].
        replace j with (j - size + 1 * size) at 2 by lia.
        symmetry. apply Nat.Div0.mod_add.
    + congruence.
    + rewrite Hip1 in R2.
      apply (reads_trans _ _ _ _ _ _ _ _ _ R1 R2);
        pose proof (stored_le size s); lia.
Qed.

(** *** The four operations, from the state left by the control byte *)

Lemma fill_run_spec byte s :
  length (output s) = size_orig ->
  let value_at := ext_bytes byte + input_ptr s in
  wrote s (fill_run byte s)
        (stored (fill_length byte (input_at (input_ptr s))) s)
        (fun _ => input_at value_at) /\
  input_ptr (fill_run byte s) = S value_at /\
  reads_within s (fill_run byte s) (input_ptr s) (S value_at).
Proof.
  intros Hlen. unfold Lnd.fill_run, ext_bytes, fill_length, Lnd.read_next.
  destruct (nonzero (Z.land byte 32)); cbn zeta iota beta.
  - set (s1 := advance 1 (snd (peek stray_in input 0 s))).
    cbn [peek fst snd]. fold s1.
    destruct (fill_loop_spec (Z.to_nat (Z.land byte 31 + 2 +
                Z.shiftl (input_at (input_ptr s)) 5)) s1 Hlen) as (W & Hip & R).
    split3.
    + apply (wrote_from s s1); try reflexivity. apply wrote_advance. exact W.
    + exact (f_equal S Hip).
    + assert (R1 : reads_within s s1 (input_ptr s) (S (input_ptr s))).
      { apply (reads_one _ _ _ _ (input_ptr s)); [reflexivity | lia]. }
      apply reads_advance.
      apply (reads_trans _ _ _ _ _ _ _ _ _ R1 R); simpl; lia.
  - rewrite Z.add_0_r.
    destruct (fill_loop_spec (Z.to_nat (Z.land byte 31 + 2)) s Hlen)
      as (W & Hip & R).
    split3.
    + apply wrote_advance. exact W.
    + exact (f_equal S Hip).
    + apply reads_advance. exact R.
Qed.

Lemma reads_next s lo hi :
  lo <= input_ptr s < hi ->
  reads_within s (advance 1 (snd (peek stray_in input 0 s))) lo hi.
Proof. intros H. apply reads_advance. now apply (reads_one _ _ _ _ (input_ptr s)). Qed.

Lemma back_reference_spec byte s :
  length (output s) = size_orig ->
  (exists f, wrote s (back_reference byte s) (stored (copy_length byte) s) f) /\
  input_ptr (back_reference byte s) = S (input_ptr s) /\
  reads_within s (back_reference byte s) (input_ptr s) (S (input_ptr s)).
Proof.
  intros Hlen. unfold Lnd.back_reference, copy_length, Lnd.read_next.
  cbn [peek fst snd].
  set (s1 := advance 1 (snd (peek stray_in input 0 s))).
  set (k := if (_ <? 0)%Z then _ else _).
  destruct (copy_loop_spec k (Z.to_nat (Z.land (Z.shiftr byte 2) 15 + 2)) s1 Hlen)
    as ((f & W) & Hip & R).
  split3.
  - exists f. apply (wrote_from s s1); try reflexivity. exact W.
  - exact Hip.
  - apply (reads_trans s s1 _ _ _ (input_ptr s) (S (input_ptr s))
                       (input_ptr s) (S (input_ptr s)));
      try lia; [apply reads_next; lia | now apply reads_none].
Qed.

Lemma blend_spec byte s :
  length (output s) = size_orig ->
  let size := block_size byte in
  let repetitions := repeat_count (input_at (input_ptr s)) in
  wrote s (blend byte s) (stored (repetitions * size) s)
        (fun j => blended s j (S (j mod size))) /\
  input_ptr (blend byte s) = size + S (input_ptr s) /\
  reads_within s (blend byte s) (input_ptr s) (size + S (input_ptr s)).
Proof.
  intros Hlen. unfold Lnd.blend, block_size, repeat_count, Lnd.read_next.
  cbn [peek fst snd].
  set (s1 := advance 1 (snd (peek stray_in input 0 s))).
  destruct (blend_loop_spec (Z.to_nat (Z.land byte 63 + 2))
              (Z.to_nat (input_at (input_ptr s) + 1)) s1 Hlen) as (W & Hip & R).
  split3.
  - apply (wrote_from s s1); try reflexivity. apply wrote_advance.
    eapply wrote_ext; [| exact W]. intros j _. unfold blended. simpl.
    now rewrite Nat.add_succ_r.
  - exact (f_equal (Nat.add _) Hip).
  - apply reads_advance.
    apply (reads_trans s s1 _ _ _ (input_ptr s) (S (input_ptr s))
                       (input_ptr s1) (input_ptr s1 + Z.to_nat (Z.land byte 63 + 2)));
      simpl; try lia; [apply reads_next; lia | exact R].
Qed.

Lemma literal_spec byte s :
  length (output s) = size_orig ->
  let first := ext_bytes byte + input_ptr s in
  let size := literal_length byte (input_at (input_ptr s)) in
  wrote s (literal byte s) (stored size s) (fun j => input_at (first + j)) /\
  input_ptr (literal byte s) = first + stored size s /\
  reads_within s (literal byte s) (input_ptr s) (first + stored size s).
Proof.
  intros Hlen. unfold Lnd.literal, ext_bytes, literal_length, Lnd.read_next.
  destruct (nonzero (Z.land byte 32)); cbn zeta iota beta.
  - set (s1 := advance 1 (snd (peek stray_in input 0 s))).
    cbn [peek fst snd]. fold s1.
    destruct (literal_loop_spec (Z.to_nat (Z.land byte 31 + 1 +
                Z.shiftl (input_at (input_ptr s)) 5)) s1 Hlen) as (W & Hip & R).
    split3.
    + apply (wrote_from s s1); try reflexivity. exact W.
    + exact Hip.
    + assert (R1 : reads_within s s1 (input_ptr s) (S (input_ptr s)))
        by (apply reads_next; lia).
      apply (reads_trans _ _ _ _ _ _ _ _ _ R1 R);
        unfold stored; cbn [s1 advance peek snd input_ptr output_ptr]; lia.
  - rewrite Z.add_0_r. apply literal_loop_spec. exact Hlen.
Qed.

(** *** One turn of the loop *)

Lemma step_unfold s :
  step s =
  let byte := input_at (input_ptr s) in
  if nonzero (Z.land byte 0x80) then
    if nonzero (Z.land byte 0x40) then fill_run byte (fetched s)
    else back_reference byte (fetched s)
  else
    if nonzero (Z.land byte 0x40) then blend byte (fetched s)
    else literal byte (fetched s).
Proof. reflexivity. Qed.

Lemma wrote_fetched s s' n f : wrote (fetched s) s' n f -> wrote s s' n f.
Proof. apply wrote_from; reflexivity. Qed.

Lemma step_summary s :
  length (output s) = size_orig ->
  exists k f, wrote s (step s) (stored k s) f /\
              input_ptr s < input_ptr (step s).
Proof.
  intros Hlen. rewrite step_unfold. cbn zeta.
  set (byte := input_at (input_ptr s)).
  destruct (nonzero (Z.land byte 128)), (nonzero (Z.land byte 64)).
  - destruct (fill_run_spec byte (fetched s) Hlen) as (W & Hip & _).
    eexists _, _. split; [apply wrote_fetched; exact W |].
    rewrite Hip. simpl. lia.
  - destruct (back_reference_spec byte (fetched s) Hlen) as ((f & W) & Hip & _).
    eexists _, _. split; [apply wrote_fetched; exact W |].
    rewrite Hip. simpl. lia.
  - destruct (blend_spec byte (fetched s) Hlen) as (W & Hip & _).
    eexists _, _. split; [apply wrote_fetched; exact W |].
    rewrite Hip. simpl. lia.
  - destruct (literal_spec byte (fetched s) Hlen) as (W & Hip & _).
    eexists _, _. split; [apply wrote_fetched; exact W |].
    rewrite Hip. simpl. lia.
Qed.

(** *** What holds at every turn *)

Lemma inv_init : inv (init size_orig).
Proof.
  unfold inv, init, bstr_sized; simpl. rewrite length_replicate.
  repeat split; [lia |]. intros i _ Hi. now apply lookup_replicate_2.
Qed.

Lemma inv_wrote s s' k f : inv s -> wrote s s' (stored k s) f -> inv s'.
Proof.
  intros (Hlen & Hle & Hlog & Hzero) (Hp & Hl & _ & Hframe & Hw).
  assert (Hst : output_ptr s + stored k s <= size_orig) by (unfold stored; lia).
  unfold inv. rewrite Hp, Hl, Hw, Hlog. split3; [assumption | lia |]. split.
  - symmetry. apply seq_app.
  - intros i Hi1 Hi2. rewrite Hframe by lia. apply Hzero; lia.
Qed.

Lemma inv_step s : inv s -> inv (step s).
Proof.
  intros Hinv. destruct (step_summary s) as (k & f & W & _); [apply Hinv |].
  exact (inv_wrote _ _ _ _ Hinv W).
Qed.

Lemma inv_run fuel : forall s, inv s -> inv (run fuel s).
Proof.
  induction fuel as [| fuel IH]; intros s Hinv; simpl; [assumption |].
  destruct (running s); [| assumption]. apply IH. now apply inv_step.
Qed.

(** The fuel given to [run] never runs out before the loop condition fails. *)
Lemma run_exits fuel : forall s,
  inv s -> length input <= fuel + input_ptr s -> running (run fuel s) = false.
Proof.
  induction fuel as [| fuel IH]; intros s Hinv Hfuel; simpl.
  - unfold Lnd.running. apply andb_false_iff. right. apply Nat.ltb_ge. lia.
  - destruct (running s) eqn:Hrun; [| exact Hrun].
    apply IH; [now apply inv_step |].
    destruct (step_summary s) as (k & f & _ & Hlt); [apply Hinv |]. lia.
Qed.

Lemma inv_final : inv (decompress_final stray_in stray_out input size_orig).
Proof. apply inv_run, inv_init. Qed.

(** *** The additive blend *)

(** C1, as the code has it.  When the control byte has bit 7 clear and bit 6
    set, one turn of the loop adds the window of [(byte & 0x3F) + 2] input
    bytes onto successive output bytes, repeat after repeat: the output
    pointer moves on after every byte, so the repeats tile
    [repetitions * size] consecutive output bytes (fewer when the output
    fills first) with the window, byte [j] of the run receiving byte
    [j mod size] of the window.  The input pointer moves past the window
    once, after the last repeat. *)
Theorem blend_adds_window_onto_successive_spans (s : state) :
  let byte := input_at (input_ptr s) in
  nonzero (Z.land byte 0x80) = false ->
  nonzero (Z.land byte 0x40) = true ->
  length (output s) = size_orig ->
  let size := block_size byte in
  let repetitions := repeat_count (input_at (S (input_ptr s))) in
  let window k := input_at (k + S (S (input_ptr s))) in
  input_ptr (step s) = size + S (S (input_ptr s)) /\
  wrote s (step s) (stored (repetitions * size) s)
    (fun j => u8 (default 0%Z (output s !! (output_ptr s + j)) +
                  window (j mod size))).
Proof.
  intros byte H7 H6 Hlen. cbn zeta. rewrite step_unfold. cbn zeta.
  fold byte. rewrite H7, H6.
  destruct (blend_spec byte (fetched s) Hlen) as (W & Hip & _).
  split; [exact Hip |]. apply wrote_fetched.
  eapply wrote_ext; [| exact W]. intros j _. unfold blended. simpl.
  now rewrite !Nat.add_succ_r.
Qed.

(** *** The fill-run *)

(** C8.  When the control byte has bits 7 and 6 set, one turn of the loop
    leaves the input pointer one byte past the fill value, which sits right
    after the control byte and the optional length extension; this holds
    whatever part [stored run_length s] of the run fitted into the output,
    and every byte stored is the fill value. *)
Theorem fill_run_consumes_one_value_byte (s : state) :
  let byte := input_at (input_ptr s) in
  nonzero (Z.land byte 0x80) = true ->
  nonzero (Z.land byte 0x40) = true ->
  length (output s) = size_orig ->
  let value_at := ext_bytes byte + S (input_ptr s) in
  let run_length := fill_length byte (input_at (S (input_ptr s))) in
  input_ptr (step s) = S value_at /\
  wrote s (step s) (stored run_length s) (fun _ => input_at value_at).
Proof.
  intros byte H7 H6 Hlen. cbn zeta. rewrite step_unfold. cbn zeta.
  fold byte. rewrite H7, H6.
  destruct (fill_run_spec byte (fetched s) Hlen) as (W & Hip & _).
  split; [exact Hip |]. apply wrote_fetched. exact W.
Qed.

(** *** The returned buffer *)

(** C2, as the code has it.  The buffer returned has exactly [size_orig] bytes,
    whether the loop ended because the output was full or because the input
    was exhausted first; in the latter case the bytes from the output pointer
    on are the zero bytes the buffer was allocated with. *)
Theorem decompress_returns_size_orig_bytes :
  let final := decompress_final stray_in stray_out input size_orig in
  length (decompress_raw_data stray_in stray_out input size_orig) = size_orig /\
  (output_ptr final = size_orig \/ length input <= input_ptr final) /\
  drop (output_ptr final) (decompress_raw_data stray_in stray_out input size_orig)
  = replicate (size_orig - output_ptr final) 0%Z.
Proof.
  cbn zeta. unfold decompress_raw_data.
  destruct inv_final as (Hlen & Hle & _ & Hzero).
  split3; [exact Hlen | |].
  - assert (Hexit := run_exits (length input) (init size_orig) inv_init
                       ltac:(simpl; lia)).
    fold (decompress_final stray_in stray_out input size_orig) in Hexit.
    unfold Lnd.running in Hexit. apply andb_false_iff in Hexit.
    destruct Hexit as [H | H]; apply Nat.ltb_ge in H; [left | right]; lia.
  - apply list_eq. intros i. rewrite lookup_drop.
    destruct (decide (i < size_orig -
                output_ptr (decompress_final stray_in stray_out input size_orig)))
      as [Hi | Hi].
    + rewrite lookup_replicate_2 by exact Hi. apply Hzero; lia.
    + rewrite (proj1 (lookup_replicate_None _ _ _)) by lia.
      apply lookup_ge_None. lia.
Qed.

(** C10.  The buffer returned has exactly [size_orig] bytes, and every offset
    of it that no operation wrote holds the zero byte. *)
Theorem decompress_unwritten_bytes_are_zero :
  length (decompress_raw_data stray_in stray_out input size_orig) = size_orig /\
  forall i, i < size_orig ->
    ~ In i (out_writes (decompress_final stray_in stray_out input size_orig)) ->
    decompress_raw_data stray_in stray_out input size_orig !! i = Some 0%Z.
Proof.
  unfold decompress_raw_data.
  destruct inv_final as (Hlen & Hle & Hlog & Hzero).
  split; [exact Hlen |]. intros i Hi Hnot. apply Hzero; [| exact Hi].
  rewrite Hlog in Hnot. rewrite in_seq in Hnot. lia.
Qed.

(** *** Well-formed input *)

Lemma literal_length_ext byte e e' :
  ext_bytes byte = 0 -> literal_length byte e = literal_length byte e'.
Proof.
  unfold ext_bytes, literal_length.
  destruct (nonzero (Z.land byte 32)); [discriminate | reflexivity].
Qed.

Lemma reads_fetched s s' lo hi :
  reads_within (fetched s) s' lo hi ->
  input_ptr s <= lo -> S (input_ptr s) <= hi ->
  reads_within s s' (input_ptr s) hi.
Proof.
  intros R Hlo Hhi.
  assert (R1 : reads_within s (fetched s) (input_ptr s) (S (input_ptr s)))
    by (apply reads_next; lia).
  apply (reads_trans _ _ _ _ _ _ _ _ _ R1 R); lia.
Qed.

Lemma reads_Forall s s' lo hi (P : nat -> Prop) :
  reads_within s s' lo hi -> (forall i, lo <= i < hi -> P i) ->
  Forall P (in_reads s) -> Forall P (in_reads s').
Proof.
  intros (l & -> & F) HP Hs. apply Forall_app. split; [exact Hs |].
  eapply Forall_impl; [| exact F]. exact HP.
Qed.

Lemma step_on_boundary s :
  length (output s) = size_orig -> running s = true -> on_boundary s ->
  reads_within s (step s) 0 (length input) /\ on_boundary (step s).
Proof.
  intros Hlen Hrun Hb. unfold Lnd.running in Hrun.
  apply andb_true_iff in Hrun. destruct Hrun as [Hop Hip].
  apply Nat.ltb_lt in Hop. apply Nat.ltb_lt in Hip.
  destruct Hb as [Hfull | (_ & fuel & Hwf)].
  { unfold Lnd.output_full in Hfull. apply Nat.leb_le in Hfull. lia. }
  destruct (lookup_lt_is_Some_2 input (input_ptr s) Hip) as [byte Hbyte].
  rewrite (drop_S _ _ _ Hbyte) in Hwf.
  destruct fuel as [| fuel]; [discriminate |]. cbn [well_formed_from] in Hwf.
  apply andb_true_iff in Hwf. destruct Hwf as [Hn Hwf].
  apply Nat.leb_le in Hn. rewrite length_drop in Hn.
  rewrite drop_drop in Hwf. rewrite head_lookup, lookup_drop, Nat.add_0_r in *.
  assert (Hat : input_at (input_ptr s) = byte)
    by (unfold Lnd.input_at; now rewrite Hbyte).
  set (e := default 0%Z (input !! S (input_ptr s))) in *.
  assert (He : S (input_ptr s) < length input -> input_at (S (input_ptr s)) = e).
  { intros Hlt. destruct (lookup_lt_is_Some_2 input _ Hlt) as [x Hx].
    unfold e, Lnd.input_at. now rewrite Hx. }
  rewrite step_unfold. cbn zeta. rewrite Hat.
  unfold operand_bytes in Hn, Hwf.
  destruct (nonzero (Z.land byte 128)), (nonzero (Z.land byte 64)).
  - destruct (fill_run_spec byte (fetched s) Hlen) as (_ & Hp & R).
    cbn zeta in Hp, R. cbn [fetched advance peek snd input_ptr] in Hp, R.
    split.
    + apply reads_fetched in R; [| lia | lia].
      eapply reads_weaken; [exact R | lia | lia].
    + right. rewrite Hp. split; [lia |]. exists fuel.
      replace (S (ext_bytes byte + (1 + input_ptr s)))
        with (S (input_ptr s) + (ext_bytes byte + 1)) by lia.
      exact Hwf.
  - destruct (back_reference_spec byte (fetched s) Hlen) as (_ & Hp & R).
    cbn [fetched advance peek snd input_ptr] in Hp, R.
    split.
    + apply reads_fetched in R; [| lia | lia].
      eapply reads_weaken; [exact R | lia | lia].
    + right. rewrite Hp. split; [lia |]. exists fuel.
      replace (S (1 + input_ptr s)) with (S (input_ptr s) + 1) by lia.
      exact Hwf.
  - destruct (blend_spec byte (fetched s) Hlen) as (_ & Hp & R).
    cbn zeta in Hp, R. cbn [fetched advance peek snd input_ptr] in Hp, R.
    split.
    + apply reads_fetched in R; [| lia | lia].
      eapply reads_weaken; [exact R | lia | lia].
    + right. rewrite Hp. split; [lia |]. exists fuel.
      replace (block_size byte + S (1 + input_ptr s))
        with (S (input_ptr s) + (1 + block_size byte)) by lia.
      exact Hwf.
  - destruct (literal_spec byte (fetched s) Hlen) as (W & Hp & R).
    cbn zeta in W, Hp, R. cbn [fetched advance peek snd input_ptr] in W, Hp, R.
    change (1 + input_ptr s) with (S (input_ptr s)) in *.
    assert (Hlit : literal_length byte (input_at (S (input_ptr s)))
                   = literal_length byte e).
    { destruct (ext_bytes byte) eqn:Hext.
      - now apply literal_length_ext.
      - rewrite He; [reflexivity | lia]. }
    rewrite Hlit in *.
    set (len := literal_length byte e) in *.
    pose proof (stored_le len (fetched s)) as Hst.
    split.
    + apply reads_fetched in R; [| lia | lia].
      eapply reads_weaken; [exact R | lia | lia].
    + destruct (decide (stored len (fetched s) = len)) as [Hall | Hcut].
      * right. rewrite Hp, Hall. split; [lia |]. exists fuel.
        replace (ext_bytes byte + S (input_ptr s) + len)
          with (S (input_ptr s) + (ext_bytes byte + len)) by lia.
        exact Hwf.
      * left. destruct W as (Hq & _). unfold Lnd.output_full.
        apply Nat.leb_le. rewrite Hq. unfold stored in *. lia.
Qed.

Lemma run_on_boundary fuel : forall s,
  inv s -> on_boundary s ->
  Forall (fun i => i < length input) (in_reads s) ->
  on_boundary (run fuel s) /\
  Forall (fun i => i < length input) (in_reads (run fuel s)).
Proof.
  induction fuel as [| fuel IH]; intros s Hinv Hb Hrd; simpl; [auto |].
  destruct (running s) eqn:Hrun; [| auto].
  destruct (step_on_boundary s (proj1 Hinv) Hrun Hb) as [R Hb'].
  apply IH; [now apply inv_step | exact Hb' |].
  apply (reads_Forall _ _ _ _ _ R); [intros; lia | exact Hrd].
Qed.

(** C3.  On an input made of whole operations the decoder reads the input
    only at offsets below its length, and (on any input) writes the output
    only at offsets below [size_orig]; the loop then ends with the output
    full or with the input pointer exactly at the end of the input. *)
Theorem decompress_stays_in_bounds :
  well_formed input = true ->
  let final := decompress_final stray_in stray_out input size_orig in
  Forall (fun i => i < length input) (in_reads final) /\
  Forall (fun i => i < size_orig) (out_writes final) /\
  (output_ptr final = size_orig \/ input_ptr final = length input).
Proof.
  intros Hwf. cbn zeta.
  destruct (run_on_boundary (length input) (init size_orig) inv_init)
    as [Hb Hrd].
  { right. split; [simpl; lia |]. exists (length input). exact Hwf. }
  { constructor. }
  fold (decompress_final stray_in stray_out input size_orig) in Hb, Hrd.
  destruct inv_final as (Hlen & Hle & Hlog & _).
  split3; [exact Hrd | |].
  - rewrite Hlog. apply Forall_forall. intros i Hi%in_seq. lia.
  - assert (Hexit := run_exits (length input) (init size_orig) inv_init
                       ltac:(simpl; lia)).
    fold (decompress_final stray_in stray_out input size_orig) in Hexit.
    unfold Lnd.running in Hexit. apply andb_false_iff in Hexit.
    destruct Hb as [Hfull | (Hin & _)].
    + left. unfold Lnd.output_full in Hfull. apply Nat.leb_le in Hfull. lia.
    + destruct Hexit as [H | H]; apply Nat.ltb_ge in H; [left | right]; lia.
Qed.

End LndFacts.

(** ** Concrete runs of the lnd codec *)

(** C1 as the specification states it does not hold: control byte [0x40]
    (block size 2), repeat byte [1] (two repeats), window [1; 2], four bytes
    of output.  The code leaves [1; 2; 1; 2] and an output pointer of 4; one
    span overlaid twice would be [2; 4; 0; 0] with an output pointer of 2. *)
Lemma blend_does_not_overlay_one_span :
  let input := [0x40; 1; 1; 2] in
  let s := Lnd.init 4 in
  let s' := Lnd.step zero_in zero_out input 4 s in
  (Lnd.output s', Lnd.output_ptr s') = ([1; 2; 1; 2], 4%nat) /\
  blend_as_specified zero_in input 0x40 (fetched zero_in input s)
    = ([2; 4; 0; 0], 2%nat) /\
  (Lnd.output s', Lnd.output_ptr s')
    <> blend_as_specified zero_in input 0x40 (fetched zero_in input s).
Proof. vm_compute. repeat split; discriminate. Qed.

(** C1, as the code has it, on the same input: two repeats of a block of
    two bytes move the output pointer by four. *)
Lemma blend_adds_window_onto_successive_spans_witness :
  let input := [0x40; 1; 1; 2] in
  let s := Lnd.init 4 in
  let s' := Lnd.step zero_in zero_out input 4 s in
  Lnd.input_ptr s' = 4%nat /\ Lnd.output_ptr s' = 4%nat /\
  Lnd.output s' = [1; 2; 1; 2].
Proof.
  cbn zeta.
  destruct (blend_adds_window_onto_successive_spans zero_in zero_out
              [0x40; 1; 1; 2] 4 (Lnd.init 4) eq_refl eq_refl eq_refl)
    as (Hip & Hp & _).
  split; [exact Hip |]. split; [exact Hp | reflexivity].
Defined.

(** C8 on the input the specification names: control byte [0xC3] (run
    length 5) followed by [0xFF]. *)
Lemma fill_run_consumes_one_value_byte_witness :
  let input := [0xC3; 0xFF] in
  let s := Lnd.init 5 in
  let s' := Lnd.step zero_in zero_out input 5 s in
  Lnd.input_ptr s' = 2%nat /\ Lnd.output_ptr s' = 5%nat /\
  forall j, (j < 5)%nat -> Lnd.output s' !! j = Some 0xFF.
Proof.
  cbn zeta.
  destruct (fill_run_consumes_one_value_byte zero_in zero_out
              [0xC3; 0xFF] 5 (Lnd.init 5) eq_refl eq_refl eq_refl)
    as (Hip & Hp & _ & Hin & _).
  split; [exact Hip |]. split; [exact Hp | exact Hin].
Defined.

(** The same run length with room for two bytes only: the input pointer
    still ends one byte past the fill value. *)
Example fill_run_cut_short :
  let final := Lnd.decompress_final zero_in zero_out [0xC3; 0xFF; 0x00; 0x41] 2 in
  Lnd.output final = [0xFF; 0xFF] /\ Lnd.input_ptr final = 2%nat.
Proof. split; reflexivity. Qed.

(** C2 as the specification states it does not hold: a literal of one byte,
    then the input ends with two of the three output bytes still to come;
    the buffer returned has three bytes all the same. *)
Lemma exhausted_input_returns_full_buffer :
  let input := [0x00; 0x41] in
  let final := Lnd.decompress_final zero_in zero_out input 3 in
  Lnd.input_ptr final = length input /\ (Lnd.output_ptr final < 3)%nat /\
  Lnd.decompress_raw_data zero_in zero_out input 3 = [0x41; 0; 0] /\
  ~ (length (Lnd.decompress_raw_data zero_in zero_out input 3) < 3)%nat.
Proof. vm_compute. repeat split; lia. Qed.

(** C10 on that input: offset 2 was never written and holds zero. *)
Lemma decompress_unwritten_bytes_are_zero_witness :
  let input := [0x00; 0x41] in
  length (Lnd.decompress_raw_data zero_in zero_out input 3) = 3%nat /\
  Lnd.decompress_raw_data zero_in zero_out input 3 !! 2%nat = Some 0.
Proof.
  cbn zeta.
  destruct (decompress_unwritten_bytes_are_zero zero_in zero_out [0x00; 0x41] 3)
    as [Hlen Hzero].
  split; [exact Hlen |]. apply Hzero; [lia |].
  intros [H | []]. discriminate H.
Defined.

(** C3 on [sample]. *)
Lemma decompress_stays_in_bounds_witness :
  well_formed sample = true /\
  let final := Lnd.decompress_final zero_in zero_out sample 20 in
  Forall (fun i => (i < 11)%nat) (Lnd.in_reads final) /\
  Forall (fun i => (i < 20)%nat) (Lnd.out_writes final) /\
  (Lnd.output_ptr final = 20%nat \/ Lnd.input_ptr final = 11%nat).
Proof.
  split; [reflexivity |].
  exact (decompress_stays_in_bounds zero_in zero_out sample 20 eq_refl).
Defined.

(** Without the hypothesis of C3 the input is read past its end: a blend
    whose repeat count and window are missing. *)
Example truncated_blend_reads_past_the_end :
  well_formed [0x40] = false /\
  Lnd.in_reads (Lnd.decompress_final zero_in zero_out [0x40] 4)
  = [0; 1; 2; 3]%nat.
Proof. split; reflexivity. Qed.

(** * Properties of the FSN filter *)

Section FsnFacts.

Import FsnSpec.

Local Open Scope nat_scope.

Lemma xor_loop_length n : forall i ptr, length (Fsn.xor_loop i n ptr) = length ptr.
Proof.
  induction n as [| n IH]; intros i ptr; cbn [Fsn.xor_loop]; [reflexivity |].
  now rewrite IH, length_alter.
Qed.

Lemma xor_loop_lookup n : forall i ptr j,
  Fsn.xor_loop i n ptr !! j =
  if bool_decide (i <= j < i + n) then (fun c => Z.lxor c 0x36) <$> ptr !! j
  else ptr !! j.
Proof.
  induction n as [| n IH]; intros i ptr j; cbn [Fsn.xor_loop].
  - rewrite bool_decide_eq_false_2 by lia. reflexivity.
  - rewrite IH, list_lookup_alter.
    destruct (decide (i = j)) as [-> | Hne].
    + rewrite bool_decide_eq_false_2 by lia.
      rewrite bool_decide_eq_true_2 by lia. reflexivity.
    + destruct (decide (i <= j < i + S n)).
      * rewrite !bool_decide_eq_true_2 by lia. reflexivity.
      * rewrite !bool_decide_eq_false_2 by lia. reflexivity.
Qed.

Lemma fsn_buffer_length bytes : length (fsn_buffer bytes) = length bytes.
Proof.
  unfold fsn_buffer. cbv zeta.
  repeat (destruct (_ <? _)); rewrite ?length_alter; apply xor_loop_length.
Qed.

Lemma fsn_buffer_lookup bytes i :
  fsn_buffer bytes !! i = fsn_byte (length bytes) i <$> bytes !! i.
Proof.
  unfold fsn_buffer, fsn_byte. cbv zeta.
  set (far := Z.to_nat 191017). clearbody far.
  assert (Hx : Fsn.xor_loop 0 (length bytes) bytes !! i
               = (fun c => Z.lxor c 0x36) <$> bytes !! i).
  { rewrite xor_loop_lookup. destruct (decide (i < length bytes)).
    - rewrite bool_decide_eq_true_2 by lia. reflexivity.
    - rewrite bool_decide_eq_false_2 by lia.
      rewrite (lookup_ge_None_2 bytes i) by lia. reflexivity. }
  destruct (Nat.ltb_spec far (length bytes)) as [Hfar | Hfar];
    destruct (Nat.ltb_spec 19 (length bytes)) as [Hnear | Hnear];
    rewrite ?list_lookup_alter;
    repeat case_decide; simplify_eq; rewrite Hx;
    repeat case_bool_decide;
    destruct (bytes !! _); simpl; try reflexivity; try (exfalso; lia);
    try (exfalso; tauto).
Qed.

Lemma fsn_decode_eq key file :
  Fsn.decode key file =
  Ok (tt, {| Io.data := fsn_buffer (Io.data file); Io.pos := Io.size file |}).
Proof.
  unfold Fsn.decode, bind, Io.seek, Io.read, Io.write, Io.size. cbv zeta.
  cbn [Nat.leb Io.data Io.pos Nat.add].
  rewrite Nat.leb_refl. cbn [Io.data Io.pos Nat.add Nat.leb]. 
  rewrite drop_0, firstn_all.
  fold (fsn_buffer (Io.data file)).
  rewrite fsn_buffer_length, drop_all, app_nil_r. reflexivity.
Qed.

(** C9.  The filter returns, leaves the length of the buffer as it was and
    the byte [fsn_byte] describes at every offset; the key plays no part;
    and in a buffer of exactly [0x2EA29] bytes no byte receives the
    correction by 3: every byte is xor-ed with [0x36], the one at offset
    [0x13] with 1 as well. *)
Theorem fsn_decode_xors_every_byte (file : Io.io) (key : Z) :
  exists file',
    Fsn.decode key file = Ok (tt, file') /\
    length (Io.data file') = length (Io.data file) /\
    (forall i, Io.data file' !! i
               = fsn_byte (length (Io.data file)) i <$> Io.data file !! i) /\
    (forall key', Fsn.decode key' file = Fsn.decode key file) /\
    (length (Io.data file) = Z.to_nat 0x2EA29 ->
     forall i, Io.data file' !! i
               = (fun b => if bool_decide (i = 0x13) then Z.lxor (Z.lxor b 0x36) 1
                           else Z.lxor b 0x36) <$> Io.data file !! i).
Proof.
  eexists. split; [apply fsn_decode_eq |]. cbn [Io.data].
  split; [apply fsn_buffer_length |].
  split; [apply fsn_buffer_lookup |].
  split; [intros key'; now rewrite !fsn_decode_eq |].
  intros Hsize i. rewrite fsn_buffer_lookup. unfold fsn_byte. cbv zeta.
  set (far := Z.to_nat 191017) in *. clearbody far. rewrite Hsize.
  rewrite (bool_decide_eq_false_2 (i = far /\ far < far)) by lia.
  destruct (Io.data file !! i) eqn:E; [| reflexivity].
  apply lookup_lt_Some in E. rewrite Hsize in E.
  destruct (decide (i = 19)) as [Heq | Hne].
  - rewrite (bool_decide_eq_true_2 (i = 19 /\ 19 < far)) by lia.
    rewrite (bool_decide_eq_true_2 (i = 19)) by exact Heq. reflexivity.
  - rewrite (bool_decide_eq_false_2 (i = 19 /\ 19 < far)) by tauto.
    rewrite (bool_decide_eq_false_2 (i = 19)) by exact Hne. reflexivity.
Qed.

End FsnFacts.

(** * Properties of the cursor *)

Section IoFacts.

Local Open Scope nat_scope.

Lemma read_ok n c :
  Io.pos c + n <= Io.size c -> Io.read n c = Ok (bytes_at 0 n c, moved n c).
Proof.
  intros H. unfold Io.read, bytes_at, moved.
  rewrite (proj2 (Nat.leb_le _ _) H), Nat.add_0_r. reflexivity.
Qed.

Lemma read_eof n c : Io.size c < Io.pos c + n -> Io.read n c = Err EofError.
Proof.
  intros H. unfold Io.read. now rewrite (proj2 (Nat.leb_gt _ _) H).
Qed.

Lemma read_le_ok n c :
  Io.pos c + n <= Io.size c ->
  Io.read_le n c = Ok (Io.le (bytes_at 0 n c), moved n c).
Proof. intros H. unfold Io.read_le, bind. now rewrite read_ok. Qed.

Lemma read_le_eof n c : Io.size c < Io.pos c + n -> Io.read_le n c = Err EofError.
Proof. intros H. unfold Io.read_le, bind. now rewrite read_eof. Qed.

Lemma seek_ok n c :
  n <= Io.size c -> Io.seek n c = Ok (tt, {| Io.data := Io.data c; Io.pos := n |}).
Proof. intros H. unfold Io.seek. now rewrite (proj2 (Nat.leb_le _ _) H). Qed.

Lemma skip_ok n c : Io.pos c + n <= Io.size c -> Io.skip n c = Ok (tt, moved n c).
Proof. intros H. unfold Io.skip. now rewrite seek_ok. Qed.

Lemma moved_moved n m c : moved m (moved n c) = moved (n + m) c.
Proof. unfold moved; simpl. f_equal. lia. Qed.

Lemma bytes_at_moved k n m c : bytes_at k n (moved m c) = bytes_at (m + k) n c.
Proof. unfold bytes_at, moved; simpl. do 2 f_equal. lia. Qed.

Lemma eof_only_bind {S A B} (m : St S A) (k : A -> St S B) :
  eof_only m -> (forall a, eof_only (k a)) -> eof_only (bind m k).
Proof.
  intros Hm Hk s e. unfold bind. destruct (m s) as [[a s'] | e'] eqn:E.
  - apply Hk.
  - intros [= <-]. eapply Hm, E.
Qed.

Lemma eof_only_ret {S A} (a : A) : eof_only (@ret S A a).
Proof. intros s e. discriminate. Qed.

Lemma eof_only_seek n : eof_only (Io.seek n).
Proof. intros c e. unfold Io.seek. destruct (_ <=? _); congruence. Qed.

Lemma eof_only_skip n : eof_only (Io.skip n).
Proof. intros c e. unfold Io.skip. apply eof_only_seek. Qed.

Lemma eof_only_read n : eof_only (Io.read n).
Proof. intros c e. unfold Io.read. destruct (_ <=? _); congruence. Qed.

Lemma eof_only_read_le n : eof_only (Io.read_le n).
Proof.
  apply eof_only_bind; [apply eof_only_read | intros; apply eof_only_ret].
Qed.

Lemma eof_only_read_to_eof : eof_only Io.read_to_eof.
Proof. intros c e. discriminate. Qed.

End IoFacts.

(** * Properties of the lnd file decoder *)

Section LndFileFacts.

Local Open Scope nat_scope.

Variable stray_in : nat -> Z.
Variable stray_out : Z -> Z.

Local Abbreviation decoded := (LndSpec.decoded stray_in stray_out).

Lemma decode_impl_eof_only file_name :
  eof_only (Lnd.decode_impl stray_in stray_out file_name).
Proof.
  unfold Lnd.decode_impl.
  repeat first
    [ apply eof_only_ret
    | apply eof_only_seek | apply eof_only_skip | apply eof_only_read_le
    | apply eof_only_read_to_eof
    | (apply eof_only_bind; [| intros]) ].
Qed.

Lemma decode_impl_ok file_name file :
  16 <= Io.size file ->
  Lnd.decode_impl stray_in stray_out file_name file =
  Ok (decoded file_name file,
      {| Io.data := Io.data file; Io.pos := Io.size file |}).
Proof.
  intros Hsize. unfold Lnd.decode_impl, bind, Io.skip, Io.read_u32_le.
  rewrite seek_ok by (simpl; lia).
  rewrite seek_ok by (unfold Io.size in *; simpl; lia).
  rewrite read_le_ok by (unfold Io.size in *; simpl; lia).
  rewrite seek_ok by (unfold Io.size in *; simpl; lia).
  reflexivity.
Qed.

(** C4, as the code has it.  On a file that does not start with the signature
    [is_recognized_impl] answers [false]; [decode_impl] does not look at the
    signature: it never throws [CorruptDataError], and once the 16 bytes of
    the header are there it returns the payload decompressed like that of
    any other file. *)
Theorem lnd_decode_does_not_check_the_signature
    (file_name : list Z) (file : Io.io) :
  Io.pos file = 0 -> 4 <= Io.size file ->
  take 4 (Io.data file) <> Lnd.magic ->
  Lnd.is_recognized_impl file = Ok (false, moved 4 file) /\
  (forall what, Lnd.decode_impl stray_in stray_out file_name file
                <> Err (CorruptDataError what)) /\
  (16 <= Io.size file ->
   Lnd.decode_impl stray_in stray_out file_name file =
   Ok (decoded file_name file,
       {| Io.data := Io.data file; Io.pos := Io.size file |})).
Proof.
  intros Hpos Hsize Hmagic. split3.
  - unfold Lnd.is_recognized_impl, bind.
    rewrite read_ok by (simpl; lia). unfold ret, bytes_at.
    rewrite Hpos, drop_0. simpl length.
    now rewrite bool_decide_eq_false_2.
  - intros what H. apply decode_impl_eof_only in H. discriminate.
  - apply decode_impl_ok.
Qed.

End LndFileFacts.

(** C4 as the specification states it does not hold: [foreign_file] does not
    start with the signature and is not recognised, yet [decode_impl] does
    not throw: it returns the two bytes of the payload. *)
Lemma lnd_decode_accepts_a_foreign_signature :
  take 4 (Io.data foreign_file) <> Lnd.magic /\
  Lnd.is_recognized_impl foreign_file = Ok (false, moved 4 foreign_file) /\
  Lnd.decode_impl zero_in zero_out [120] foreign_file
  = Ok ({| name := [120]; content := [0x41; 0x42] |}, moved 19 foreign_file).
Proof. repeat split. discriminate. Qed.

(** C4, as the code has it, on [foreign_file]. *)
Lemma lnd_decode_does_not_check_the_signature_witness :
  Lnd.is_recognized_impl foreign_file = Ok (false, moved 4 foreign_file) /\
  Lnd.decode_impl zero_in zero_out [120] foreign_file
  = Ok ({| name := [120]; content := [0x41; 0x42] |}, moved 19 foreign_file).
Proof.
  destruct (lnd_decode_does_not_check_the_signature zero_in zero_out [120]
              foreign_file eq_refl ltac:(vm_compute; lia) ltac:(discriminate))
    as (Hrec & _ & Hdec).
  split; [exact Hrec |]. apply Hdec. vm_compute. lia.
Defined.

(** * Properties of the XP3 archive decoder *)

Section Xp3Facts.

Local Open Scope nat_scope.

Import Xp3 Xp3Spec.

Variable zlib_inflate : list Z -> option (list Z).
Variable utf16le_to_utf8 : list Z -> option (list Z).
Variable set_decoder : list Z -> option (list Z -> Z -> list Z).

Local Abbreviation read_raw_table := (Xp3.read_raw_table zlib_inflate).
Local Abbreviation read_info_chunk := (Xp3.read_info_chunk utf16le_to_utf8).
Local Abbreviation read_segment := (Xp3.read_segment zlib_inflate).
Local Abbreviation segm_loop := (Xp3.segm_loop zlib_inflate).
Local Abbreviation read_data_from_segm_chunk :=
  (Xp3.read_data_from_segm_chunk zlib_inflate).
Local Abbreviation read_file := (Xp3.read_file zlib_inflate utf16le_to_utf8).
Local Abbreviation unpack_loop := (Xp3.unpack_loop zlib_inflate utf16le_to_utf8).
Local Abbreviation unpack_internal :=
  (Xp3.unpack_internal zlib_inflate utf16le_to_utf8 set_decoder).
Local Abbreviation segment_data := (Xp3Spec.segment_data zlib_inflate).
Local Abbreviation concatenation := (Xp3Spec.concatenation zlib_inflate).
Local Abbreviation reaches := (Xp3Spec.reaches zlib_inflate utf16le_to_utf8).

(** ** Which errors a function can throw *)

Lemma avoids_bind {S A B} bad (m : St S A) (k : A -> St S B) :
  avoids bad m -> (forall a, avoids bad (k a)) -> avoids bad (bind m k).
Proof.
  intros Hm Hk s. unfold bind. destruct (m s) as [[a s'] | e] eqn:E.
  - apply Hk.
  - intros [= ->]. exact (Hm s E).
Qed.

Lemma avoids_ret {S A} bad (a : A) : avoids bad (@ret S A a).
Proof. intros s. discriminate. Qed.

Lemma avoids_throw {S A} bad e : e <> bad -> avoids bad (@throw S A e).
Proof. intros Hne s [= H]. exact (Hne H). Qed.

Lemma avoids_eof_only {S A} bad (m : St S A) :
  bad <> EofError -> eof_only m -> avoids bad m.
Proof. intros Hne Hm s E. apply Hm in E. exact (Hne E). Qed.

Lemma avoids_on_table {A} bad (m : Io.M A) : avoids bad m -> avoids bad (on_table m).
Proof.
  intros Hm c. unfold on_table. destruct (m (table_io c)) as [[a t] | e] eqn:E.
  - discriminate.
  - intros [= ->]. exact (Hm _ E).
Qed.

Lemma avoids_on_arc {A} bad (m : Io.M A) : avoids bad m -> avoids bad (on_arc m).
Proof.
  intros Hm c. unfold on_arc. destruct (m (arc_io c)) as [[a t] | e] eqn:E.
  - discriminate.
  - intros [= ->]. exact (Hm _ E).
Qed.

Lemma avoids_inflate {S} bad bytes :
  bad <> InflateError -> avoids bad (@inflate zlib_inflate S bytes).
Proof.
  intros Hne. unfold inflate. destruct (zlib_inflate bytes).
  - apply avoids_ret.
  - apply avoids_throw. congruence.
Qed.

Lemma avoids_tell bad : avoids bad Io.tell.
Proof. intros s. discriminate. Qed.

(** Steps shared by the lemmas below: split a sequence, settle a cursor
    operation, a [throw] of another error, or a branch. *)
Ltac avoid_step :=
  first
    [ apply avoids_ret
    | apply avoids_tell
    | (apply avoids_throw; discriminate)
    | (apply avoids_inflate; discriminate)
    | (apply avoids_eof_only;
       [ discriminate
       | first [ apply eof_only_read | apply eof_only_read_le
               | apply eof_only_seek | apply eof_only_skip ] ])
    | apply avoids_on_table
    | apply avoids_on_arc
    | (apply avoids_bind; [| intros])
    | match goal with
      | |- avoids _ (if ?b then _ else _) => destruct b
      | |- avoids _ (match ?o with Some _ => _ | None => _ end) => destruct o
      end ].

Lemma read_raw_table_avoids : avoids version_error read_raw_table.
Proof. unfold Xp3.read_raw_table, Io.read_u8, Io.read_u64_le. repeat avoid_step. Qed.

Lemma read_info_chunk_avoids : avoids version_error read_info_chunk.
Proof.
  unfold Xp3.read_info_chunk, Io.read_u16_le, Io.read_u32_le, Io.read_u64_le.
  repeat avoid_step.
Qed.

Lemma read_segment_avoids : avoids version_error read_segment.
Proof.
  unfold Xp3.read_segment, Io.read_u32_le, Io.read_u64_le. repeat avoid_step.
Qed.

Lemma segm_loop_avoids fuel : forall size initial full_data,
  avoids version_error (segm_loop fuel size initial full_data).
Proof.
  induction fuel as [| fuel IH]; intros size initial full_data c;
    cbn [Xp3.segm_loop]; destruct (_ >? _)%Z; try discriminate.
  apply avoids_bind; [apply read_segment_avoids | intros; apply IH].
Qed.

Lemma read_data_from_segm_chunk_avoids :
  avoids version_error read_data_from_segm_chunk.
Proof.
  unfold Xp3.read_data_from_segm_chunk, Io.read_u64_le.
  repeat first [ (intros c; apply segm_loop_avoids) | avoid_step ].
Qed.

Lemma read_key_from_adlr_chunk_avoids :
  avoids version_error read_key_from_adlr_chunk.
Proof.
  unfold Xp3.read_key_from_adlr_chunk, Io.read_u32_le, Io.read_u64_le.
  repeat avoid_step.
Qed.

Lemma read_file_avoids filter_func : avoids version_error (read_file filter_func).
Proof.
  unfold Xp3.read_file, Io.read_u64_le.
  repeat first
    [ apply read_info_chunk_avoids
    | apply read_data_from_segm_chunk_avoids
    | apply read_key_from_adlr_chunk_avoids
    | avoid_step ].
Qed.

Lemma unpack_loop_avoids fuel filter_func : forall c saved,
  snd (unpack_loop fuel filter_func c saved) <> Some version_error.
Proof.
  induction fuel as [| fuel IH]; intros c saved; cbn [Xp3.unpack_loop];
    [discriminate |].
  destruct (_ <? _); [| discriminate].
  destruct (read_file filter_func c) as [[file c'] | e] eqn:E.
  - apply IH.
  - cbn [snd]. intros [= ->]. exact (read_file_avoids _ _ E).
Qed.

(** ** The version of the header *)

Lemma detect_version_spec c :
  Io.pos c <= Io.size c -> 23 <= Io.size c ->
  detect_version c =
  Ok (if (Io.le (take 4 (drop 19 (Io.data c))) =? 1)%Z then 2%Z else 1%Z, c).
Proof.
  intros Hpos Hsize. unfold detect_version, bind, Io.tell, Io.read_u32_le.
  rewrite seek_ok by lia.
  rewrite read_le_ok by (unfold Io.size in *; simpl; lia).
  rewrite seek_ok by (unfold Io.size in *; simpl; lia).
  unfold ret, bytes_at. cbn [Io.data Io.pos]. rewrite Nat.add_0_r.
  now destruct c.
Qed.

Lemma get_table_offset_two c :
  Io.pos c + 12 <= Io.size c ->
  get_table_offset 2 c =
  if (Io.le (bytes_at 8 4 c) =? 1)%Z
  then follow_additional_header (Io.le (bytes_at 0 8 c)) (moved 12 c)
  else Err version_error.
Proof.
  intros Hsize. unfold get_table_offset, Io.read_u64_le, Io.read_u32_le.
  cbn [Z.eqb Pos.eqb]. unfold bind at 1.
  rewrite read_le_ok by lia. unfold bind at 1.
  rewrite read_le_ok by (unfold Io.size in *; simpl; lia).
  rewrite bytes_at_moved, moved_moved. cbn [Nat.add].
  destruct (_ =? 1)%Z; reflexivity.
Qed.

Lemma follow_additional_header_avoids offset :
  avoids version_error (follow_additional_header offset).
Proof.
  unfold follow_additional_header, Io.read_u64_le. repeat avoid_step.
Qed.

(** C5.  [arc] is the archive as [unpack_internal] receives it, with the
    11 bytes of the signature, the 8 bytes of an offset and the 4 bytes of a
    minor version ahead of its cursor.  Once the signature is skipped,
    [detect_version] answers 2 exactly when the four bytes at offset 19 of
    the archive hold 1, and it hands the cursor back where it found it.
    When they do hold 1, the unpacking throws "Unexpected XP3 version"
    exactly when the four bytes that follow the signature and the 8-byte
    offset do not hold 1. *)
Theorem xp3_version_two_requires_minor_version_one
    (arc_name : list Z) (arc : Io.io) :
  Io.pos arc + 23 <= Io.size arc ->
  let marker := Io.le (take 4 (drop 19 (Io.data arc))) in
  let minor_version := Io.le (bytes_at 19 4 arc) in
  detect_version (moved 11 arc)
    = Ok (if (marker =? 1)%Z then 2%Z else 1%Z, moved 11 arc) /\
  (marker = 1%Z ->
   (snd (unpack_internal arc_name arc) = Some version_error
    <-> minor_version <> 1%Z)).
Proof.
  intros Hsize marker minor_version.
  assert (Hdetect : detect_version (moved 11 arc)
            = Ok (if (marker =? 1)%Z then 2%Z else 1%Z, moved 11 arc)).
  { apply detect_version_spec; unfold Io.size in *; simpl; lia. }
  split; [exact Hdetect |]. intros Hmarker.
  unfold Xp3.unpack_internal. cbv zeta. unfold bind at 1.
  change (length xp3_magic) with 11.
  rewrite skip_ok by lia. unfold bind at 1. rewrite Hdetect.
  rewrite Hmarker. cbn [Z.eqb Pos.eqb]. unfold bind at 1.
  rewrite get_table_offset_two by (unfold Io.size in *; simpl; lia).
  rewrite !bytes_at_moved. cbn [Nat.add]. fold minor_version.
  destruct (Z.eqb_spec minor_version 1) as [Hone | Hother].
  - split; [| intros H; now elim H]. intros H. exfalso.
    destruct (follow_additional_header _ _) as [[table_offset arc1] | e] eqn:E1.
    + unfold bind in H at 1.
      destruct (Io.seek _ arc1) as [[[] arc2] | e] eqn:E2.
      * destruct (read_raw_table arc2) as [[table arc3] | e] eqn:E3.
        -- exact (unpack_loop_avoids _ _ _ _ H).
        -- cbn [snd] in H. injection H as ->.
           exact (read_raw_table_avoids _ E3).
      * cbn [snd] in H. injection H as ->.
        apply eof_only_seek in E2. discriminate.
    + cbn [snd] in H. injection H as ->.
      exact (follow_additional_header_avoids _ _ E1).
  - split; [intros _; exact Hother | reflexivity].
Qed.

(** ** The table cursor only moves forward *)

Lemma grows_bind {A B} (m : St cursors A) (k : A -> St cursors B) :
  grows m -> (forall a, grows (k a)) -> grows (bind m k).
Proof.
  intros Hm Hk c b c'. unfold bind.
  destruct (m c) as [[a c1] | e] eqn:E; [| discriminate].
  intros H. destruct (Hm _ _ _ E) as [Hd Hp].
  destruct (Hk _ _ _ _ H) as [Hd' Hp']. split; [congruence | lia].
Qed.

Lemma grows_io_bind {A B} (m : Io.M A) (k : A -> Io.M B) :
  grows_io m -> (forall a, grows_io (k a)) -> grows_io (bind m k).
Proof.
  intros Hm Hk c b c'. unfold bind.
  destruct (m c) as [[a c1] | e] eqn:E; [| discriminate].
  intros H. destruct (Hm _ _ _ E) as [Hd Hp].
  destruct (Hk _ _ _ _ H) as [Hd' Hp']. split; [congruence | lia].
Qed.

Lemma grows_ret {A} (a : A) : grows (ret a).
Proof. intros c a' c' [= _ <-]. auto. Qed.

Lemma grows_io_ret {A} (a : A) : grows_io (ret a).
Proof. intros c a' c' [= _ <-]. auto. Qed.

Lemma grows_throw {A} e : grows (@throw cursors A e).
Proof. intros c a c'. discriminate. Qed.

Lemma grows_io_throw {A} e : grows_io (@throw Io.io A e).
Proof. intros c a c'. discriminate. Qed.

Lemma grows_io_read n : grows_io (Io.read n).
Proof.
  intros t a t'. unfold Io.read. destruct (_ <=? _); [| discriminate].
  intros [= _ <-]. simpl. split; [reflexivity | lia].
Qed.

Lemma grows_io_read_le n : grows_io (Io.read_le n).
Proof.
  apply grows_io_bind; [apply grows_io_read | intros; apply grows_io_ret].
Qed.

Lemma grows_io_tell : grows_io Io.tell.
Proof. intros t a t' [= _ <-]. auto. Qed.

Lemma grows_on_table {A} (m : Io.M A) : grows_io m -> grows (on_table m).
Proof.
  intros Hm c a c'. unfold on_table.
  destruct (m (table_io c)) as [[a' t] | e] eqn:E; [| discriminate].
  intros [= _ <-]. exact (Hm _ _ _ E).
Qed.

Lemma grows_on_arc {A} (m : Io.M A) : grows (on_arc m).
Proof.
  intros c a c'. unfold on_arc.
  destruct (m (arc_io c)) as [[a' t] | e]; [| discriminate].
  intros [= _ <-]. auto.
Qed.

Lemma grows_inflate bytes : grows (@inflate zlib_inflate cursors bytes).
Proof.
  unfold inflate. destruct (zlib_inflate bytes);
    [apply grows_ret | apply grows_throw].
Qed.

Ltac grow_step :=
  first
    [ apply grows_ret | apply grows_io_ret
    | apply grows_throw | apply grows_io_throw
    | apply grows_inflate
    | apply grows_io_read | apply grows_io_read_le | apply grows_io_tell
    | apply grows_on_arc
    | apply grows_on_table
    | (apply grows_bind; [| intros])
    | (apply grows_io_bind; [| intros])
    | match goal with
      | |- grows (if ?b then _ else _) => destruct b
      | |- grows_io (if ?b then _ else _) => destruct b
      | |- grows_io (match ?o with Some _ => _ | None => _ end) => destruct o
      end ].

Lemma read_segment_grows : grows read_segment.
Proof.
  unfold Xp3.read_segment, Io.read_u32_le, Io.read_u64_le. repeat grow_step.
Qed.

Lemma segm_loop_grows fuel : forall size initial full_data,
  grows (segm_loop fuel size initial full_data).
Proof.
  induction fuel as [| fuel IH]; intros size initial full_data c a c';
    cbn [Xp3.segm_loop]; destruct (_ >? _)%Z; try discriminate;
    try (intros [= _ <-]; now auto).
  apply grows_bind; [apply read_segment_grows | intros; apply IH].
Qed.

Lemma read_file_grows filter_func : grows (read_file filter_func).
Proof.
  unfold Xp3.read_file, Xp3.read_info_chunk, Xp3.read_data_from_segm_chunk,
    Xp3.read_key_from_adlr_chunk, Io.read_u16_le, Io.read_u32_le, Io.read_u64_le.
  repeat first [ (intros c; apply segm_loop_grows) | grow_step ].
Qed.

(** An entry takes at least the four bytes of its tag. *)
Lemma read_file_progress filter_func c file c' :
  read_file filter_func c = Ok (file, c') ->
  Io.size (table_io c') = Io.size (table_io c) /\
  Io.pos (table_io c) + 4 <= Io.pos (table_io c').
Proof.
  intros H. pose proof (read_file_grows _ _ _ _ H) as [Hd Hp].
  unfold Io.size. rewrite Hd. split; [reflexivity |].
  revert H. unfold Xp3.read_file. unfold bind at 1.
  destruct (on_table (Io.read (length file_magic)) c) as [[magic c1] | e] eqn:E;
    [| discriminate].
  intros H.
  assert (Hrest : Io.pos (table_io c1) <= Io.pos (table_io c')).
  { match type of H with
    | ?rest c1 = _ => assert (G : grows rest)
    end.
    { unfold Xp3.read_info_chunk, Xp3.read_data_from_segm_chunk,
        Xp3.read_key_from_adlr_chunk, Io.read_u16_le, Io.read_u32_le,
        Io.read_u64_le.
      repeat first [ (intros c0; apply segm_loop_grows) | grow_step ]. }
    exact (proj2 (G _ _ _ H)). }
  revert E. unfold on_table, Io.read. change (length file_magic) with 4.
  destruct (_ <=? _); [| discriminate]. intros [= _ <-].
  cbn [table_io Io.pos] in Hrest. exact Hrest.
Qed.

Lemma unpack_loop_S fuel filter_func c saved :
  unpack_loop (S fuel) filter_func c saved =
  if Io.pos (table_io c) <? Io.size (table_io c) then
    match read_file filter_func c with
    | Ok (file, c') => unpack_loop fuel filter_func c' (saved ++ [file])
    | Err e => (saved, Some e)
    end
  else (saved, None).
Proof. reflexivity. Qed.

Lemma segm_loop_S fuel size initial full_data c :
  segm_loop (S fuel) size initial full_data c =
  if (size >? Z.of_nat (Io.pos (table_io c) - initial))%Z then
    (data <- read_segment ;; segm_loop fuel size initial (full_data ++ data)) c
  else Ok (full_data, c).
Proof. reflexivity. Qed.

(** More fuel than the table has bytes left changes nothing. *)
Lemma unpack_loop_fuel fuel filter_func : forall c saved,
  Io.size (table_io c) - Io.pos (table_io c) <= fuel ->
  unpack_loop (S fuel) filter_func c saved = unpack_loop fuel filter_func c saved.
Proof.
  induction fuel as [| fuel IH]; intros c saved Hfuel.
  - cbn [Xp3.unpack_loop].
    rewrite (proj2 (Nat.ltb_ge _ _)) by lia. reflexivity.
  - rewrite (unpack_loop_S (S fuel)), (unpack_loop_S fuel).
    destruct (_ <? _); [| reflexivity].
    destruct (read_file filter_func c) as [[file c'] | e] eqn:E; [| reflexivity].
    apply IH. destruct (read_file_progress _ _ _ _ E) as [Hs Hp]. lia.
Qed.

(** ** Entry records *)

Lemma on_table_ok {A} (m : Io.M A) t r a t' :
  m t = Ok (a, t') ->
  on_table m {| table_io := t; arc_io := r |}
  = Ok (a, {| table_io := t'; arc_io := r |}).
Proof. intros H. unfold on_table. cbn [table_io arc_io]. now rewrite H. Qed.

Lemma on_table_err {A} (m : Io.M A) t r e :
  m t = Err e -> on_table m {| table_io := t; arc_io := r |} = Err e.
Proof. intros H. unfold on_table. cbn [table_io]. now rewrite H. Qed.

Lemma on_arc_ok {A} (m : Io.M A) t r a r' :
  m r = Ok (a, r') ->
  on_arc m {| table_io := t; arc_io := r |}
  = Ok (a, {| table_io := t; arc_io := r' |}).
Proof. intros H. unfold on_arc. cbn [table_io arc_io]. now rewrite H. Qed.

Lemma on_arc_err {A} (m : Io.M A) t r e :
  m r = Err e -> on_arc m {| table_io := t; arc_io := r |} = Err e.
Proof. intros H. unfold on_arc. cbn [arc_io]. now rewrite H. Qed.

(** An entry that throws ends the loop with its error, whatever came
    before it. *)
Lemma unpack_loop_throws filter_func c0 saved0 c saved e :
  reaches filter_func c0 saved0 c saved ->
  Io.pos (table_io c) < Io.size (table_io c) ->
  read_file filter_func c = Err e ->
  forall fuel,
    Io.size (table_io c0) - Io.pos (table_io c0) <= fuel ->
    unpack_loop fuel filter_func c0 saved0 = (saved, Some e).
Proof.
  intros Hreach Hpos Hfile.
  induction Hreach as [c saved | c saved file c1 c' saved' Hlt Hok _ IH];
    intros fuel Hfuel; (destruct fuel as [| fuel]; [lia |]);
    rewrite unpack_loop_S.
  - rewrite (proj2 (Nat.ltb_lt _ _) Hpos), Hfile. reflexivity.
  - rewrite (proj2 (Nat.ltb_lt _ _) Hlt), Hok.
    apply (IH Hpos Hfile). destruct (read_file_progress _ _ _ _ Hok). lia.
Qed.

(** C6.  The table cursor of [c] stands on a [File] chunk that declares
    [declared] bytes; the three sub-chunks that follow parse, leaving the
    cursors [c4].  If the table bytes they took are not [declared] in
    number, [read_file] throws "Unexpected file data size", and so does the
    loop of [unpack_internal], from wherever it started, once it reaches
    that entry; the saver keeps what it received before. *)
Theorem xp3_entry_span_must_equal_declared_length
    (filter_func : option (list Z -> Z -> list Z))
    (c c2 c3 c4 : cursors) (info : InfoChunk) (data : list Z) (key : Z) :
  Io.pos (table_io c) + 12 <= Io.size (table_io c) ->
  bytes_at 0 4 (table_io c) = file_magic ->
  let declared := Io.le (bytes_at 4 8 (table_io c)) in
  on_table read_info_chunk (past_chunk_header c) = Ok (info, c2) ->
  read_data_from_segm_chunk c2 = Ok (data, c3) ->
  on_table read_key_from_adlr_chunk c3 = Ok (key, c4) ->
  Z.of_nat (Io.pos (table_io c4) - Io.pos (table_io (past_chunk_header c)))
    <> declared ->
  read_file filter_func c = Err size_error /\
  forall c0 saved0 saved fuel,
    reaches filter_func c0 saved0 c saved ->
    Io.size (table_io c0) - Io.pos (table_io c0) <= fuel ->
    unpack_loop fuel filter_func c0 saved0 = (saved, Some size_error).
Proof.
  intros Hsize Hmagic declared Hinfo Hsegm Hadlr Hspan.
  assert (Hfile : read_file filter_func c = Err size_error).
  { destruct c as [t r]. unfold past_chunk_header in *.
    cbn [table_io arc_io] in *.
    unfold Xp3.read_file, Io.read_u64_le. unfold bind at 1.
    change (length file_magic) with 4.
    rewrite (on_table_ok _ _ _ _ _ (read_ok 4 t ltac:(lia))).
    rewrite Hmagic, bool_decide_eq_false_2 by (intros H; now apply H).
    unfold bind at 1.
    rewrite (on_table_ok _ _ _ _ _ (read_le_ok 8 (moved 4 t)
               ltac:(unfold Io.size in *; simpl; lia))).
    rewrite bytes_at_moved, moved_moved.
    cbn [Nat.add]. fold declared.
    unfold bind at 1. unfold on_table at 1, Io.tell. cbn [table_io arc_io].
    unfold bind at 1. rewrite Hinfo.
    unfold bind at 1. rewrite Hsegm.
    unfold bind at 1. rewrite Hadlr.
    unfold bind at 1. unfold on_table at 1, Io.tell.
    destruct (Z.eqb_spec
                (Z.of_nat (Io.pos (table_io c4) - Io.pos (moved 12 t)))
                declared) as [Heq | _]; [now elim Hspan | reflexivity]. }
  split; [exact Hfile |]. intros c0 saved0 saved fuel Hreach Hfuel.
  apply (unpack_loop_throws _ _ _ _ _ _ Hreach); [lia | exact Hfile | exact Hfuel].
Qed.

(** ** Segments *)

Lemma land_7_positive x : (Z.land x 7 >? 0)%Z = nonzero (Z.land x 7).
Proof.
  assert (0 <= Z.land x 7)%Z by (apply Z.land_nonneg; lia).
  unfold nonzero. destruct (Z.eqb_spec (Z.land x 7) 0) as [-> | Hne].
  - reflexivity.
  - simpl. rewrite Z.gtb_ltb. apply Z.ltb_lt. lia.
Qed.

Lemma slice_seek_read (r : Io.io) offset len :
  (Io.seek (Z.to_nat offset) ;;; Io.read (Z.to_nat len)) r =
  match slice (Io.data r) offset len with
  | Ok d => Ok (d, {| Io.data := Io.data r;
                      Io.pos := Z.to_nat offset + Z.to_nat len |})
  | Err e => Err e
  end.
Proof.
  unfold bind, slice, Io.seek, Io.read, Io.size. cbn [Io.data Io.pos].
  destruct (Nat.leb_spec (Z.to_nat offset + Z.to_nat len) (length (Io.data r)))
    as [Hin | Hout].
  - rewrite (proj2 (Nat.leb_le (Z.to_nat offset) _)) by lia. cbn [Io.data Io.pos].
    now rewrite (proj2 (Nat.leb_le _ _) Hin).
  - destruct (Z.to_nat offset <=? _); [| reflexivity]. cbn [Io.data Io.pos].
    now rewrite (proj2 (Nat.leb_gt _ _) Hout).
Qed.

Lemma arc_seek_read t r offset len :
  (on_arc (Io.seek (Z.to_nat offset)) ;;; on_arc (Io.read (Z.to_nat len)))
    {| table_io := t; arc_io := r |} =
  match slice (Io.data r) offset len with
  | Ok d => Ok (d, {| table_io := t;
                      arc_io := {| Io.data := Io.data r;
                                   Io.pos := Z.to_nat offset + Z.to_nat len |} |})
  | Err e => Err e
  end.
Proof.
  pose proof (slice_seek_read r offset len) as H. unfold bind in *.
  unfold on_arc at 1. cbn [arc_io table_io].
  destruct (Io.seek (Z.to_nat offset) r) as [[[] r1] | e].
  - unfold on_arc. cbn [arc_io table_io].
    destruct (Io.read (Z.to_nat len) r1) as [[d r2] | e];
      destruct (slice _ _ _); congruence.
  - destruct (slice _ _ _); congruence.
Qed.

(** The four fields of the record under the table cursor. *)
Lemma parse_segment_at t :
  parse_segment (drop (Io.pos t) (Io.data t)) =
  {| seg_flags := Io.le (bytes_at 0 4 t);
     seg_offset := Io.le (bytes_at 4 8 t);
     seg_original := Io.le (bytes_at 12 8 t);
     seg_compressed := Io.le (bytes_at 20 8 t) |}.
Proof.
  unfold parse_segment, bytes_at. rewrite !drop_drop, Nat.add_0_r. reflexivity.
Qed.

Lemma read_segment_spec t r :
  Io.pos t + 28 <= Io.size t ->
  match read_segment {| table_io := t; arc_io := r |} with
  | Ok (d, c') =>
      segment_data (Io.data r) (parse_segment (drop (Io.pos t) (Io.data t)))
        = Ok d /\
      table_io c' = moved 28 t /\ Io.data (arc_io c') = Io.data r
  | Err e =>
      segment_data (Io.data r) (parse_segment (drop (Io.pos t) (Io.data t)))
        = Err e
  end.
Proof.
  intros Hsize. rewrite parse_segment_at. unfold segment_data.
  cbn [seg_flags seg_offset seg_original seg_compressed].
  unfold Xp3.read_segment, Io.read_u32_le, Io.read_u64_le.
  unfold bind at 1.
  rewrite (on_table_ok _ _ _ _ _ (read_le_ok 4 t ltac:(lia))).
  unfold bind at 1.
  rewrite (on_table_ok _ _ _ _ _ (read_le_ok 8 (moved 4 t)
             ltac:(unfold Io.size in *; simpl; lia))).
  unfold bind at 1.
  rewrite (on_table_ok _ _ _ _ _ (read_le_ok 8 (moved 8 (moved 4 t))
             ltac:(unfold Io.size in *; simpl; lia))).
  unfold bind at 1.
  rewrite (on_table_ok _ _ _ _ _ (read_le_ok 8 (moved 8 (moved 8 (moved 4 t)))
             ltac:(unfold Io.size in *; simpl; lia))).
  rewrite !bytes_at_moved, !moved_moved. cbn [Nat.add].
  rewrite land_7_positive. cbv zeta.
  destruct (nonzero (Z.land (Io.le (bytes_at 0 4 t)) 7)).
  - pose proof (arc_seek_read (moved 28 t) r (Io.le (bytes_at 4 8 t))
                  (Io.le (bytes_at 20 8 t))) as H.
    unfold bind in *.
    destruct (on_arc (Io.seek _) _) as [[[] c1] | e].
    + destruct (on_arc (Io.read _) c1) as [[d c2] | e];
        destruct (slice _ _ _) as [d' | e']; try congruence.
      injection H as -> ->. unfold inflate.
      destruct (zlib_inflate d'); [| reflexivity]. now split3.
    + destruct (slice _ _ _); congruence.
  - pose proof (arc_seek_read (moved 28 t) r (Io.le (bytes_at 4 8 t))
                  (Io.le (bytes_at 12 8 t))) as H.
    unfold bind in *.
    destruct (on_arc (Io.seek _) _) as [[[] c1] | e].
    + destruct (on_arc (Io.read _) c1) as [[d c2] | e];
        destruct (slice _ _ _) as [d' | e']; try congruence.
      injection H as -> ->. now split3.
    + destruct (slice _ _ _); congruence.
Qed.

Lemma segm_loop_spec n : forall fuel size initial full_data t r,
  n <= fuel -> Io.pos t + 28 * n <= Io.size t -> initial <= Io.pos t ->
  size = Z.of_nat (Io.pos t - initial + 28 * n) ->
  match segm_loop fuel size initial full_data {| table_io := t; arc_io := r |} with
  | Ok (d, c') =>
      exists ds,
        concatenation (Io.data r) (segments n (drop (Io.pos t) (Io.data t)))
          = Ok ds /\
        d = full_data ++ ds /\
        table_io c' = moved (28 * n) t /\ Io.data (arc_io c') = Io.data r
  | Err e =>
      concatenation (Io.data r) (segments n (drop (Io.pos t) (Io.data t)))
        = Err e
  end.
Proof.
  induction n as [| n IH]; intros fuel size initial full_data t r
    Hfuel Hsize Hinit ->.
  - assert (Hcond : (Z.of_nat (Io.pos t - initial + 28 * 0)
                     >? Z.of_nat (Io.pos t - initial))%Z = false).
    { rewrite Z.gtb_ltb. apply Z.ltb_ge. lia. }
    destruct fuel; cbn [Xp3.segm_loop table_io]; rewrite Hcond;
      (exists []; rewrite app_nil_r; split3; [reflexivity | reflexivity |];
       split; [| reflexivity]; destruct t; unfold moved; simpl; f_equal; lia).
  - destruct fuel as [| fuel]; [lia |].
    assert (Hcond : (Z.of_nat (Io.pos t - initial + 28 * S n)
                     >? Z.of_nat (Io.pos t - initial))%Z = true).
    { rewrite Z.gtb_ltb. apply Z.ltb_lt. lia. }
    cbn [Xp3.segm_loop table_io]. rewrite Hcond. unfold bind at 1.
    pose proof (read_segment_spec t r ltac:(lia)) as Hseg.
    cbn [segments concatenation].
    destruct (read_segment _) as [[d [t1 r1]] | e].
    + cbn [table_io arc_io] in Hseg. destruct Hseg as (-> & -> & Hr1).
      specialize (IH fuel (Z.of_nat (Io.pos t - initial + 28 * S n)) initial
                    (full_data ++ d) (moved 28 t) r1).
      rewrite Hr1 in IH. cbn [moved Io.pos Io.data] in IH.
      rewrite drop_drop.
      destruct (segm_loop _ _ _ _ _) as [[d' c'] | e].
      * destruct IH as (ds & -> & -> & Ht & Hr);
          [lia | unfold Io.size in *; simpl; lia | lia | lia |].
        exists (d ++ ds). split3; [reflexivity | now rewrite app_assoc |].
        split; [| exact Hr]. rewrite Ht. unfold moved; simpl. f_equal. lia.
      * rewrite IH; [reflexivity | lia | unfold Io.size in *; simpl; lia
                    | lia | lia].
    + now rewrite Hseg.
Qed.

(** C7.  The table cursor of [c] stands on a [segm] sub-chunk that declares
    [declared] bytes.  If [declared] is not a multiple of 28 the parse throws
    "Unexpected SEGM chunk size".  If it is [28 * n] and the table holds the
    [n] records, the parse returns what the concatenation of the [n]
    segments is, or throws what the first failing segment throws. *)
Theorem xp3_segm_data_is_the_concatenation_of_its_segments (c : cursors) :
  Io.pos (table_io c) + 12 <= Io.size (table_io c) ->
  bytes_at 0 4 (table_io c) = segm_magic ->
  let declared := Io.le (bytes_at 4 8 (table_io c)) in
  ((declared mod 28 <> 0)%Z ->
   read_data_from_segm_chunk c
   = Err (CorruptDataError "Unexpected SEGM chunk size")) /\
  (forall n,
     declared = Z.of_nat (28 * n) ->
     Io.pos (table_io c) + 12 + 28 * n <= Io.size (table_io c) ->
     returned (read_data_from_segm_chunk c)
     = concatenation (Io.data (arc_io c))
         (segments n (drop (Io.pos (table_io c) + 12) (Io.data (table_io c))))).
Proof.
  intros Hsize Hmagic declared. destruct c as [t r]. cbn [table_io arc_io] in *.
  assert (Hhead :
    read_data_from_segm_chunk {| table_io := t; arc_io := r |}
    = (if nonzero (declared mod 28)
       then throw (CorruptDataError "Unexpected SEGM chunk size")
       else initial_pos <- on_table Io.tell ;;
            fun c => segm_loop (Io.size (table_io c) - Io.pos (table_io c))
                       declared initial_pos [] c)
        {| table_io := moved 12 t; arc_io := r |}).
  { unfold Xp3.read_data_from_segm_chunk, Io.read_u64_le.
    unfold bind at 1. change (length segm_magic) with 4.
    rewrite (on_table_ok _ _ _ _ _ (read_ok 4 t ltac:(lia))).
    rewrite Hmagic, bool_decide_eq_false_2 by (intros H; now apply H).
    unfold bind at 1.
    rewrite (on_table_ok _ _ _ _ _ (read_le_ok 8 (moved 4 t)
               ltac:(unfold Io.size in *; simpl; lia))).
    rewrite bytes_at_moved, moved_moved. reflexivity. }
  rewrite Hhead. clear Hhead. split.
  - intros Hmod. unfold nonzero.
    destruct (Z.eqb_spec (declared mod 28) 0); [contradiction | reflexivity].
  - intros n Hn Hroom.
    assert (Hmod : (declared mod 28 = 0)%Z).
    { rewrite Hn, Nat2Z.inj_mul, Z.mul_comm. apply Z_mod_mult. }
    unfold nonzero. rewrite Hmod. cbn [Z.eqb negb].
    unfold bind, on_table, Io.tell. cbn [table_io arc_io].
    pose proof (segm_loop_spec n (Io.size (moved 12 t) - Io.pos (moved 12 t))
                  declared (Io.pos (moved 12 t)) [] (moved 12 t) r) as H.
    unfold Io.size in *. cbn [moved Io.pos Io.data] in *.
    destruct (segm_loop _ _ _ _ _) as [[d c'] | e].
    + destruct H as (ds & Hds & -> & _); [lia | lia | lia | lia |].
      cbn [returned]. now rewrite Hds.
    + cbn [returned]. rewrite H; [reflexivity | lia | lia | lia | lia].
Qed.

(** ** The fuel of the segment loop *)

Lemma read_segment_short t r :
  Io.size t < Io.pos t + 28 ->
  read_segment {| table_io := t; arc_io := r |} = Err EofError.
Proof.
  intros Hshort. unfold Xp3.read_segment, Io.read_u32_le, Io.read_u64_le.
  unfold bind at 1.
  destruct (Nat.le_gt_cases (Io.pos t + 4) (Io.size t)) as [H4 | H4];
    [| now rewrite (on_table_err _ _ _ _ (read_le_eof 4 t H4))].
  rewrite (on_table_ok _ _ _ _ _ (read_le_ok 4 t H4)). unfold bind at 1.
  destruct (Nat.le_gt_cases (Io.pos (moved 4 t) + 8) (Io.size (moved 4 t)))
    as [H12 | H12];
    [| now rewrite (on_table_err _ _ _ _ (read_le_eof 8 _ H12))].
  rewrite (on_table_ok _ _ _ _ _ (read_le_ok 8 _ H12)). unfold bind at 1.
  destruct (Nat.le_gt_cases (Io.pos (moved 8 (moved 4 t)) + 8)
              (Io.size (moved 8 (moved 4 t)))) as [H20 | H20];
    [| now rewrite (on_table_err _ _ _ _ (read_le_eof 8 _ H20))].
  rewrite (on_table_ok _ _ _ _ _ (read_le_ok 8 _ H20)). unfold bind at 1.
  rewrite (on_table_err _ _ _ _ (read_le_eof 8 (moved 8 (moved 8 (moved 4 t)))
             ltac:(unfold Io.size in *; simpl in *; lia))).
  reflexivity.
Qed.

Lemma segm_loop_fuel fuel : forall size initial full_data t r,
  Io.size t - Io.pos t <= fuel ->
  segm_loop (S fuel) size initial full_data {| table_io := t; arc_io := r |}
  = segm_loop fuel size initial full_data {| table_io := t; arc_io := r |}.
Proof.
  induction fuel as [| fuel IH]; intros size initial full_data t r Hfuel.
  - cbn [Xp3.segm_loop table_io]. destruct (_ >? _)%Z; [| reflexivity].
    unfold bind. now rewrite read_segment_short by lia.
  - rewrite (segm_loop_S (S fuel)), (segm_loop_S fuel). cbn [table_io].
    destruct (_ >? _)%Z; [| reflexivity]. unfold bind.
    destruct (Nat.le_gt_cases (Io.pos t + 28) (Io.size t)) as [Hroom | Hshort];
      [| now rewrite read_segment_short by lia].
    pose proof (read_segment_spec t r Hroom) as Hseg.
    destruct (read_segment _) as [[d [t1 r1]] | e]; [| reflexivity].
    destruct Hseg as (_ & Ht & _). cbn [table_io] in Ht. subst t1.
    apply IH. unfold Io.size in *. simpl. lia.
Qed.

End Xp3Facts.

(** ** Concrete archives *)

(** The end-to-end property of the specification: one file, named by the
    UTF-16LE name and holding the bytes of the segment. *)
Example unpack_toy_archive :
  Xp3.unpack_internal no_inflate toy_utf8 no_filter [116]
    (Io.BufferedIO (toy_archive 92))
  = ([{| name := [97]; content := [10; 20; 30] |}], None).
Proof. vm_compute. reflexivity. Qed.

(** The same archive with a [File] chunk that declares 91 bytes, one fewer
    than its sub-chunks take. *)
Example unpack_toy_archive_one_byte_short :
  Xp3.unpack_internal no_inflate toy_utf8 no_filter [116]
    (Io.BufferedIO (toy_archive 91))
  = ([], Some size_error).
Proof. vm_compute. reflexivity. Qed.

(** C6 on the entry of that archive: [toy_cursors 91 0] are the cursors the
    unpacking has when it enters its loop. *)
Lemma xp3_entry_span_must_equal_declared_length_witness :
  Xp3.read_file no_inflate toy_utf8 None (toy_cursors 91 0) = Err size_error /\
  Xp3.unpack_internal no_inflate toy_utf8 no_filter [116]
    (Io.BufferedIO (toy_archive 91))
  = ([], Some size_error).
Proof.
  assert (H : Xp3.read_file no_inflate toy_utf8 None (toy_cursors 91 0)
              = Err size_error /\
              forall c0 saved0 saved fuel,
                reaches no_inflate toy_utf8 None c0 saved0 (toy_cursors 91 0) saved ->
                (Io.size (Xp3.table_io c0) - Io.pos (Xp3.table_io c0) <= fuel)%nat ->
                Xp3.unpack_loop no_inflate toy_utf8 fuel None c0 saved0
                = (saved, Some size_error)).
  { eapply (xp3_entry_span_must_equal_declared_length no_inflate toy_utf8 None
              (toy_cursors 91 0)).
    - vm_compute. lia.
    - reflexivity.
    - vm_compute. reflexivity.
    - vm_compute. reflexivity.
    - vm_compute. reflexivity.
    - vm_compute. discriminate. }
  destruct H as [Hfile Hloop]. split; [exact Hfile |].
  change (Xp3.unpack_loop no_inflate toy_utf8 104 None (toy_cursors 91 0) []
          = ([], Some size_error)).
  apply Hloop; [apply reaches_here | vm_compute; lia].
Defined.

(** C7 on the [segm] sub-chunk of the toy table, 48 bytes into it. *)
Lemma xp3_segm_data_is_the_concatenation_of_its_segments_witness :
  returned (Xp3.read_data_from_segm_chunk no_inflate (toy_cursors 92 48))
  = Ok [10; 20; 30].
Proof.
  destruct (xp3_segm_data_is_the_concatenation_of_its_segments no_inflate
              (toy_cursors 92 48) ltac:(vm_compute; lia) eq_refl) as [_ H].
  rewrite (H 1%nat eq_refl ltac:(vm_compute; lia)). reflexivity.
Defined.

(** A [segm] sub-chunk that declares 27 bytes. *)
Example segm_chunk_of_27_bytes :
  Xp3.read_data_from_segm_chunk no_inflate
    {| Xp3.table_io := Io.BufferedIO (Xp3.segm_magic ++ le_bytes 8 27 ++
                                      replicate 27 0);
       Xp3.arc_io := Io.BufferedIO [] |}
  = Err (CorruptDataError "Unexpected SEGM chunk size").
Proof. vm_compute. reflexivity. Qed.

(** A compressed segment: [flags & 7] is 2, the compressed size (2) is what
    is read and inflated, here by an inflater that doubles every byte. *)
Example segm_chunk_with_a_compressed_segment :
  returned
    (Xp3.read_data_from_segm_chunk (fun b => Some (b ++ b))
       {| Xp3.table_io :=
            Io.BufferedIO (Xp3.segm_magic ++ le_bytes 8 56 ++
                           le_bytes 4 2 ++ le_bytes 8 1 ++ le_bytes 8 9 ++ le_bytes 8 2 ++
                           le_bytes 4 8 ++ le_bytes 8 0 ++ le_bytes 8 1 ++ le_bytes 8 9);
          Xp3.arc_io := Io.BufferedIO [5; 6; 7; 8] |})
  = Ok [6; 7; 6; 7; 5].
Proof. vm_compute. reflexivity. Qed.

(** C5 on [version_two_archive]. *)
Lemma xp3_version_two_requires_minor_version_one_witness :
  snd (Xp3.unpack_internal no_inflate toy_utf8 no_filter [116]
         version_two_archive)
  = Some version_error.
Proof.
  destruct (xp3_version_two_requires_minor_version_one no_inflate toy_utf8
              no_filter [116] version_two_archive ltac:(vm_compute; lia))
    as [_ H].
  apply (H eq_refl). vm_compute. discriminate.
Defined.

(** Read from its start, an archive has its minor version in the very bytes
    [detect_version] looks at: the signature has 11 bytes and the offset
    that follows has 8. *)
Remark minor_version_is_the_marker (arc : Io.io) :
  Io.pos arc = 0%nat ->
  bytes_at (length Xp3.xp3_magic + 8) 4 arc = take 4 (drop 19 (Io.data arc)).
Proof. intros H. unfold bytes_at. now rewrite H. Qed.

(** ** Concrete buffers for the FSN filter *)

(** In a buffer of [0x2EA30] bytes the byte at [0x2EA29] gets both xors. *)
Example fsn_byte_at_the_far_offset (b : Z) :
  fsn_byte (Z.to_nat 0x2EA30) (Z.to_nat 0x2EA29) b = Z.lxor (Z.lxor b 0x36) 3.
Proof.
  unfold fsn_byte. cbv zeta.
  repeat case_bool_decide; try reflexivity; exfalso; lia.
Qed.

(** A buffer of 20 zero bytes: [0x36] everywhere, [0x37] at offset [0x13]. *)
Example fsn_decode_twenty_bytes :
  Fsn.decode 7 (Io.BufferedIO (replicate 20 0))
  = Ok (tt, {| Io.data := replicate 19 0x36 ++ [0x37]; Io.pos := 20 |}).
Proof. vm_compute. reflexivity. Qed.

(** C9 on a buffer of exactly [0x2EA29] zero bytes: the last byte gets the
    uniform xor only, the byte at [0x13] the correction by 1 as well. *)
Lemma fsn_decode_xors_every_byte_witness :
  exists file',
    Fsn.decode 7 (Io.BufferedIO (replicate (Z.to_nat 0x2EA29) 0)) = Ok (tt, file') /\
    Io.data file' !! Z.to_nat 0x2EA28 = Some 0x36 /\
    Io.data file' !! 0x13%nat = Some 0x37.
Proof.
  destruct (fsn_decode_xors_every_byte
              (Io.BufferedIO (replicate (Z.to_nat 0x2EA29) 0)) 7)
    as (file' & Hdec & _ & _ & _ & Hfar).
  exists file'. split; [exact Hdec |].
  specialize (Hfar (length_replicate _ _)). cbn [Io.BufferedIO Io.data] in Hfar.
  split; rewrite Hfar, lookup_replicate_2 by lia;
    cbn [fmap option_fmap option_map];
    case_bool_decide; try reflexivity; exfalso; lia.
Defined.

(** * Further properties of the FSN filter *)

Section FsnMore.

Local Open Scope Z_scope.

Lemma lxor_byte a b : is_byte a -> is_byte b -> is_byte (Z.lxor a b).
Proof.
  unfold is_byte. intros [Ha Ha'] [Hb Hb'].
  assert (Hlog : forall x, 0 <= x < 256 -> Z.log2 x < 8).
  { intros x [Hx Hx']. destruct (Z.eq_dec x 0) as [-> | Hne]; [reflexivity |].
    apply Z.log2_lt_pow2; lia. }
  assert (Hnn : 0 <= Z.lxor a b) by (apply Z.lxor_nonneg; lia).
  split; [exact Hnn |].
  destruct (Z.eq_dec (Z.lxor a b) 0) as [-> | Hne]; [lia |].
  change 256 with (2 ^ 8). apply Z.log2_lt_pow2; [lia |].
  pose proof (Z.log2_lxor a b Ha Hb). pose proof (Hlog a). pose proof (Hlog b).
  lia.
Qed.

Lemma fsn_byte_involutive size i x : fsn_byte size i (fsn_byte size i x) = x.
Proof.
  unfold fsn_byte. cbv zeta.
  repeat case_bool_decide;
    rewrite ?Z.lxor_assoc;
    repeat first
      [ rewrite Z.lxor_nilpotent | rewrite Z.lxor_0_r
      | rewrite (Z.lxor_comm 3 (Z.lxor 54 _)) | rewrite (Z.lxor_comm 1 (Z.lxor 54 _))
      | rewrite (Z.lxor_comm 1 (Z.lxor 3 _))
      | rewrite Z.lxor_assoc ];
    try reflexivity.
  all: apply Z.bits_inj'; intros n Hn; rewrite !Z.lxor_spec;
    repeat match goal with |- context [Z.testbit ?c n] => 
      is_var c; destruct (Z.testbit c n) end;
    repeat match goal with |- context [Z.testbit ?c n] =>
      destruct (Z.testbit c n) end; reflexivity.
Qed.

Lemma fsn_buffer_involutive bytes : fsn_buffer (fsn_buffer bytes) = bytes.
Proof.
  apply list_eq. intros i.
  rewrite fsn_buffer_lookup, fsn_buffer_length, fsn_buffer_lookup.
  destruct (bytes !! i); [| reflexivity]. simpl.
  now rewrite fsn_byte_involutive.
Qed.

(** X1.  The filter is its own inverse: run twice, with whatever keys, it
    gives back the bytes it was given. *)
Theorem fsn_decode_twice_restores_the_buffer (file : Io.io) (key key' : Z) :
  exists once twice,
    Fsn.decode key file = Ok (tt, once) /\
    Fsn.decode key' once = Ok (tt, twice) /\
    Io.data twice = Io.data file.
Proof.
  eexists _, _. split; [apply fsn_decode_eq |].
  split; [apply fsn_decode_eq |]. cbn [Io.data]. apply fsn_buffer_involutive.
Qed.

(** X2.  The filter keeps bytes bytes: if every value of the buffer fits a
    [u8], so does every value it writes back. *)
Theorem fsn_decode_keeps_bytes_in_range (file : Io.io) (key : Z) :
  Forall is_byte (Io.data file) ->
  exists file',
    Fsn.decode key file = Ok (tt, file') /\ Forall is_byte (Io.data file').
Proof.
  intros Hbytes. eexists. split; [apply fsn_decode_eq |]. cbn [Io.data].
  apply Forall_lookup. intros i y Hy. rewrite fsn_buffer_lookup in Hy.
  destruct (Io.data file !! i) as [x |] eqn:Hx; [| discriminate].
  injection Hy as <-.
  assert (Hxb : is_byte x) by exact (proj1 (Forall_lookup _ _) Hbytes i x Hx).
  unfold fsn_byte. cbv zeta.
  repeat case_bool_decide;
    repeat (apply lxor_byte; [| unfold is_byte; lia]); exact Hxb.
Qed.

End FsnMore.

(** X2 on a buffer of three bytes. *)
Lemma fsn_decode_keeps_bytes_in_range_witness :
  exists file',
    Fsn.decode 7 (Io.BufferedIO [0; 255; 0x36]) = Ok (tt, file') /\
    Forall is_byte (Io.data file').
Proof.
  apply (fsn_decode_keeps_bytes_in_range (Io.BufferedIO [0; 255; 0x36]) 7).
  cbn [Io.BufferedIO Io.data]. repeat constructor; unfold is_byte; lia.
Defined.

(** * Further properties of the lnd codec *)

Section LndMore.

Import Lnd LndSpec.

Variable stray_in : nat -> Z.
Variable stray_out : Z -> Z.
Variable input : list Z.
Variable size_orig : nat.

Local Open Scope nat_scope.

Local Abbreviation input_at := (Lnd.input_at stray_in input).
Local Abbreviation output_full := (Lnd.output_full size_orig).
Local Abbreviation copy_loop := (Lnd.copy_loop stray_out size_orig).
Local Abbreviation back_reference :=
  (Lnd.back_reference stray_in stray_out input size_orig).
Local Abbreviation literal := (Lnd.literal stray_in input size_orig).
Local Abbreviation step := (Lnd.step stray_in stray_out input size_orig).
Local Abbreviation running := (Lnd.running input size_orig).
Local Abbreviation run := (Lnd.run stray_in stray_out input size_orig).
Local Abbreviation stored := (LndSpec.stored size_orig).
Local Abbreviation fetched := (LndSpec.fetched stray_in input).
Local Abbreviation inv := (LndSpec.inv size_orig).
Local Abbreviation decompress_final :=
  (Lnd.decompress_final stray_in stray_out input size_orig).

(** ** Turns of the loop *)

Lemma step_keeps s k :
  inv s -> k < output_ptr s ->
  output (step s) !! k = output s !! k /\ output_ptr s <= output_ptr (step s).
Proof.
  intros Hinv Hk.
  destruct (step_summary stray_in stray_out input size_orig s (proj1 Hinv))
    as (n & f & (Hp & _ & _ & Hframe & _) & _).
  split; [apply Hframe; lia | lia].
Qed.

Lemma run_keeps fuel : forall s k,
  inv s -> k < output_ptr s ->
  output (run fuel s) !! k = output s !! k /\
  output_ptr s <= output_ptr (run fuel s).
Proof.
  induction fuel as [| fuel IH]; intros s k Hinv Hk; simpl; [auto |].
  destruct (running s); [| auto].
  destruct (step_keeps s k Hinv Hk) as [Hsame Hle].
  destruct (IH (step s) k) as [Hsame' Hle'];
    [now apply inv_step | lia |].
  split; [congruence | lia].
Qed.

Lemma run_add a : forall b s, run (a + b) s = run b (run a s).
Proof.
  induction a as [| a IH]; intros b s; simpl; [reflexivity |].
  destruct (running s) eqn:Hrun; [apply IH |].
  destruct b; simpl; [reflexivity | now rewrite Hrun].
Qed.

Lemma run_more_fuel fuel : forall s,
  inv s -> length input <= fuel + input_ptr s -> run (S fuel) s = run fuel s.
Proof.
  induction fuel as [| fuel IH]; intros s Hinv Hfuel.
  - simpl. destruct (running s) eqn:Hrun; [| reflexivity].
    unfold Lnd.running in Hrun. apply andb_true_iff in Hrun.
    destruct Hrun as [_ Hip]. apply Nat.ltb_lt in Hip. lia.
  - change (run (S (S fuel)) s) with (if running s then run (S fuel) (step s) else s).
    change (run (S fuel) s) with (if running s then run fuel (step s) else s).
    destruct (running s); [| reflexivity].
    apply IH; [now apply inv_step |].
    destruct (step_summary stray_in stray_out input size_orig s (proj1 Hinv))
      as (n & f & _ & Hlt).
    lia.
Qed.

(** X3.  What the decoder has produced stays: the bytes below the output
    pointer after [t1] turns of the loop are the same after any larger
    number of turns, and the output pointer never moves back. *)
Theorem decoded_bytes_are_never_rewritten (t1 t2 k : nat) :
  t1 <= t2 ->
  k < output_ptr (run t1 (init size_orig)) ->
  output (run t2 (init size_orig)) !! k = output (run t1 (init size_orig)) !! k /\
  output_ptr (run t1 (init size_orig)) <= output_ptr (run t2 (init size_orig)).
Proof.
  intros Hle Hk. replace t2 with (t1 + (t2 - t1)) by lia. rewrite run_add.
  apply run_keeps; [| exact Hk]. apply inv_run, inv_init.
Qed.

(** X4.  The loop ends within [length input] turns: a turn that runs moves
    the input pointer forward, so turns beyond [length input] change
    nothing, and the state returned fails the loop condition. *)
Theorem decompress_loop_ends_within_the_input_length (extra : nat) :
  run (length input + extra) (init size_orig) = decompress_final /\
  running decompress_final = false /\
  (forall s, inv s -> running s = true -> input_ptr s < input_ptr (step s)).
Proof.
  split3.
  - unfold Lnd.decompress_final. induction extra as [| extra IH].
    + now rewrite Nat.add_0_r.
    + rewrite Nat.add_succ_r, run_more_fuel; [exact IH | apply inv_init |].
      simpl. lia.
  - apply run_exits; [apply inv_init | simpl; lia].
  - intros s Hinv _.
    destruct (step_summary stray_in stray_out input size_orig s (proj1 Hinv))
      as (n & f & _ & Hlt).
    exact Hlt.
Qed.

(** ** Back-references *)

Lemma copy_loop_S k n s :
  copy_loop k (S n) s =
  if output_full s then s else copy_loop k n (emit (look_back stray_out k s) s).
Proof. reflexivity. Qed.

Lemma copy_loop_period n : forall s (k : Z),
  length (output s) = size_orig ->
  (0 < k <= Z.of_nat (output_ptr s))%Z ->
  forall j, j < stored n s ->
    output (copy_loop k n s) !! (output_ptr s + j) =
    output (copy_loop k n s) !! (output_ptr s + j - Z.to_nat k).
Proof.
  induction n as [| n IH]; intros s k Hlen Hk j Hj.
  - unfold LndSpec.stored in Hj. lia.
  - rewrite copy_loop_S. unfold Lnd.output_full.
    destruct (Nat.leb_spec size_orig (output_ptr s)) as [Hfull | Hroom].
    { unfold LndSpec.stored in Hj. lia. }
    set (v := look_back stray_out k s).
    set (s2 := emit v s).
    assert (Hlen2 : length (output s2) = size_orig)
      by (unfold s2; simpl; now rewrite length_insert).
    destruct (copy_loop_spec stray_out size_orig k n s2 Hlen2)
      as ((f & _ & _ & _ & Hframe & _) & _).
    rewrite (stored_S size_orig n s v) in Hj by exact Hroom. fold s2 in Hj.
    destruct j as [| j].
    + rewrite Nat.add_0_r.
      rewrite !Hframe by (unfold s2; simpl; lia).
      unfold s2; cbn [emit output].
      rewrite list_lookup_insert_eq by lia.
      rewrite list_lookup_insert_ne by lia.
      unfold v, look_back. cbv zeta.
      rewrite (proj2 (Z.leb_le 0 _)) by lia.
      replace (Z.to_nat (Z.of_nat (output_ptr s) - k))
        with (output_ptr s - Z.to_nat k) by lia.
      destruct (lookup_lt_is_Some_2 (output s) (output_ptr s - Z.to_nat k)
                  ltac:(lia)) as [x Hx].
      now rewrite Hx.
    + specialize (IH s2 k Hlen2 ltac:(unfold s2; simpl; lia) j ltac:(lia)).
      unfold s2 in IH at 2 4. cbn [emit output_ptr] in IH.
      replace (output_ptr s + S j) with (S (output_ptr s) + j) by lia.
      exact IH.
Qed.

(** X5.  A back-reference (control byte with bit 7 set and bit 6 clear) whose
    distance reaches no further back than the start of the output copies
    byte by byte, so it can feed on what it has just written: each byte it
    stores equals the byte [distance] places before it in the result, also
    when the distance is shorter than the copy.  It takes the control byte
    and one more byte of input and leaves the earlier output alone. *)
Theorem back_reference_repeats_the_bytes_behind (s : state) :
  let byte := input_at (input_ptr s) in
  nonzero (Z.land byte 0x80) = true ->
  nonzero (Z.land byte 0x40) = false ->
  length (output s) = size_orig ->
  let d := distance byte (input_at (S (input_ptr s))) in
  (0 < d <= Z.of_nat (output_ptr s))%Z ->
  input_ptr (step s) = S (S (input_ptr s)) /\
  output_ptr (step s) = output_ptr s + stored (copy_length byte) s /\
  (forall j, j < stored (copy_length byte) s ->
     output (step s) !! (output_ptr s + j)
     = output (step s) !! (output_ptr s + j - Z.to_nat d)) /\
  (forall k, k < output_ptr s -> output (step s) !! k = output s !! k).
Proof.
  intros byte H7 H6 Hlen d Hd.
  rewrite (step_unfold stray_in stray_out input size_orig). cbn zeta.
  fold byte. rewrite H7, H6.
  destruct (back_reference_spec stray_in stray_out input size_orig byte
              (fetched s) Hlen) as ((f & Hp & _ & _ & Hframe & _) & Hip & _).
  split3; [exact Hip | exact Hp |]. split; [| intros k Hk; apply Hframe; simpl; lia].
  intros j Hj.
  change (output (copy_loop (if (d <? 0)%Z then 0%Z else d) (copy_length byte)
                    (fetched (fetched s))) !! (output_ptr s + j)
          = output (copy_loop (if (d <? 0)%Z then 0%Z else d) (copy_length byte)
                      (fetched (fetched s))) !! (output_ptr s + j - Z.to_nat d)).
  rewrite (proj2 (Z.ltb_ge d 0)) by lia.
  exact (copy_loop_period (copy_length byte) (fetched (fetched s)) d Hlen Hd j Hj).
Qed.

(** ** Literal copies *)

(** A control byte below 32 has bits 7, 6 and 5 clear. *)
Lemma literal_control_byte (n : nat) :
  n < 32 ->
  let byte := Z.of_nat n in
  nonzero (Z.land byte 0x80) = false /\ nonzero (Z.land byte 0x40) = false /\
  nonzero (Z.land byte 0x20) = false /\ Z.land byte 0x1F = byte.
Proof.
  intros Hn. do 32 (destruct n as [| n]; [vm_compute; auto |]). lia.
Qed.

Lemma run_idle fuel s : running s = false -> run fuel s = s.
Proof. intros H. destruct fuel; simpl; [reflexivity | now rewrite H]. Qed.

Lemma literal_step s chunk :
  length (output s) = size_orig ->
  1 <= length chunk <= 32 ->
  input !! input_ptr s = Some (Z.of_nat (length chunk) - 1)%Z ->
  (forall j, j < length chunk -> input !! (S (input_ptr s) + j) = chunk !! j) ->
  output_ptr s + length chunk <= size_orig ->
  input_ptr (step s) = S (input_ptr s) + length chunk /\
  wrote s (step s) (length chunk) (fun j => default 0%Z (chunk !! j)).
Proof.
  intros Hlen Hchunk Hctrl Hbytes Hroom.
  destruct (literal_control_byte (length chunk - 1) ltac:(lia))
    as (H7 & H6 & H5 & H4).
  replace (Z.of_nat (length chunk - 1)) with (Z.of_nat (length chunk) - 1)%Z
    in * by lia.
  set (byte := (Z.of_nat (length chunk) - 1)%Z) in *.
  assert (Hat : input_at (input_ptr s) = byte)
    by (unfold Lnd.input_at; now rewrite Hctrl).
  rewrite (step_unfold stray_in stray_out input size_orig). cbn zeta.
  rewrite Hat, H7, H6.
  destruct (literal_spec stray_in input size_orig byte (fetched s) Hlen)
    as (W & Hip & _).
  cbn zeta in W, Hip.
  assert (Hext : ext_bytes byte = 0) by (unfold ext_bytes; now rewrite H5).
  assert (Hsize : forall e, literal_length byte e = length chunk).
  { intros e. unfold literal_length. rewrite H5, H4. unfold byte. lia. }
  rewrite Hext, Hsize in *.
  assert (Hst : stored (length chunk) (fetched s) = length chunk).
  { unfold LndSpec.stored. simpl. lia. }
  rewrite Hst in *. split; [exact Hip |].
  apply (wrote_fetched stray_in input).
  eapply wrote_ext; [| exact W]. intros j Hj. cbn beta.
  replace (0 + input_ptr (fetched s) + j) with (S (input_ptr s) + j)
    by (cbn [fetched advance peek snd input_ptr]; lia).
  unfold Lnd.input_at. rewrite Hbytes by exact Hj.
  destruct (lookup_lt_is_Some_2 chunk j Hj) as [x ->]. reflexivity.
Qed.

Lemma run_literals chunks : forall s fuel,
  inv s ->
  Forall (fun chunk => 1 <= length chunk <= 32) chunks ->
  drop (input_ptr s) input = encode_literals chunks ->
  output_ptr s + length (concat chunks) <= size_orig ->
  length (encode_literals chunks) <= fuel ->
  output_ptr (run fuel s) = output_ptr s + length (concat chunks) /\
  (forall j x, concat chunks !! j = Some x ->
               output (run fuel s) !! (output_ptr s + j) = Some x) /\
  (forall k, k < output_ptr s -> output (run fuel s) !! k = output s !! k).
Proof.
  induction chunks as [| chunk chunks IH]; intros s fuel Hinv Hchunks Hdrop
    Hroom Hfuel.
  - assert (Hidle : running s = false).
    { unfold Lnd.running. apply andb_false_iff. right. apply Nat.ltb_ge.
      apply (f_equal length) in Hdrop. rewrite length_drop in Hdrop.
      simpl in Hdrop. lia. }
    rewrite (run_idle fuel s Hidle).
    simpl. split3; [lia | intros j x H; discriminate | reflexivity].
  - apply Forall_cons_1 in Hchunks. destruct Hchunks as [Hchunk Hchunks].
    unfold encode_literals in Hdrop, Hfuel. cbn [map concat] in Hdrop, Hfuel.
    fold (encode_literals chunks) in Hdrop, Hfuel.
    unfold literal_op in Hdrop, Hfuel. cbn [app] in Hdrop.
    rewrite length_app in Hfuel. cbn [length] in Hfuel.
    cbn [concat] in *. rewrite length_app in *.
    assert (Hlook : forall i, input !! (input_ptr s + i)
              = ((Z.of_nat (length chunk) - 1)%Z
                 :: chunk ++ encode_literals chunks) !! i).
    { intros i. rewrite <- Hdrop. now rewrite lookup_drop. }
    assert (Hctrl : input !! input_ptr s = Some (Z.of_nat (length chunk) - 1)%Z).
    { specialize (Hlook 0). now rewrite Nat.add_0_r in Hlook. }
    assert (Hbytes : forall j, j < length chunk ->
              input !! (S (input_ptr s) + j) = chunk !! j).
    { intros j Hj. specialize (Hlook (S j)).
      replace (S (input_ptr s) + j) with (input_ptr s + S j) by lia.
      rewrite Hlook. cbn [lookup list_lookup]. now apply lookup_app_l. }
    destruct (literal_step s chunk (proj1 Hinv) Hchunk Hctrl Hbytes ltac:(lia))
      as (Hip & Hp & _ & Hin & Hframe & _).
    assert (Hrun : running s = true).
    { unfold Lnd.running. apply andb_true_iff.
      split; apply Nat.ltb_lt; [lia |]. now apply lookup_lt_Some in Hctrl. }
    destruct fuel as [| fuel]; [lia |].
    change (run (S fuel) s) with (if running s then run fuel (step s) else s).
    rewrite Hrun.
    destruct (IH (step s) fuel) as (Hp' & Hin' & Hframe');
      [ now apply inv_step | exact Hchunks | | lia | lia |].
    { rewrite Hip.
      replace (S (input_ptr s) + length chunk)
        with (input_ptr s + S (length chunk)) by lia.
      rewrite <- drop_drop, Hdrop. cbn [drop].
      now rewrite drop_app_length. }
    split3.
    + lia.
    + intros j x Hj. destruct (decide (j < length chunk)) as [Hlt | Hge].
      * rewrite Hframe' by lia. rewrite Hin by exact Hlt.
        rewrite lookup_app_l in Hj by exact Hlt. now rewrite Hj.
      * rewrite lookup_app_r in Hj by lia.
        specialize (Hin' _ _ Hj). rewrite Hp in Hin'.
        replace (output_ptr s + j)
          with (output_ptr s + length chunk + (j - length chunk)) by lia.
        exact Hin'.
    + intros k Hk. rewrite Hframe' by lia. apply Hframe. lia.
Qed.

End LndMore.

(** X3 on [sample]: the first byte the literal stored in the first turn is
    still there after the third. *)
Lemma decoded_bytes_are_never_rewritten_witness :
  let after turns := Lnd.run zero_in zero_out sample 20 turns (Lnd.init 20) in
  Lnd.output (after 3%nat) !! 0%nat = Lnd.output (after 1%nat) !! 0%nat /\
  (Lnd.output_ptr (after 1%nat) <= Lnd.output_ptr (after 3%nat))%nat.
Proof.
  cbn zeta.
  apply (decoded_bytes_are_never_rewritten zero_in zero_out sample 20 1 3 0);
    [lia | vm_compute; lia].
Defined.

(** X5 after the literal ["AB"]: the control byte [0x88] asks for four
    bytes from one byte back. *)
Lemma back_reference_repeats_the_bytes_behind_witness :
  let input := [0x01; 0x41; 0x42; 0x88; 0x00] in
  let s := Lnd.run zero_in zero_out input 7 1 (Lnd.init 7) in
  let s' := Lnd.step zero_in zero_out input 7 s in
  Lnd.input_ptr s' = 5%nat /\ Lnd.output_ptr s' = 6%nat.
Proof.
  cbn zeta.
  destruct (back_reference_repeats_the_bytes_behind zero_in zero_out
              [0x01; 0x41; 0x42; 0x88; 0x00] 7
              (Lnd.run zero_in zero_out [0x01; 0x41; 0x42; 0x88; 0x00] 7 1
                 (Lnd.init 7)))
    as (Hip & Hp & _);
    [ reflexivity | reflexivity | reflexivity
    | split; [reflexivity | discriminate] |].
  split; [exact Hip | exact Hp].
Defined.

Section LndRoundTrip.

Local Open Scope nat_scope.

Variable stray_in : nat -> Z.
Variable stray_out : Z -> Z.

(** X6.  An input made of literal copies only, of 1 to 32 bytes each, is
    decoded to the bytes of the literals, in order, when the output has
    room for exactly that many. *)
Theorem literal_copies_decode_to_their_bytes (chunks : list (list Z)) :
  Forall (fun chunk => 1 <= length chunk <= 32) chunks ->
  Lnd.decompress_raw_data stray_in stray_out (encode_literals chunks)
    (length (concat chunks))
  = concat chunks.
Proof.
  intros Hchunks. unfold Lnd.decompress_raw_data, Lnd.decompress_final.
  destruct (run_literals stray_in stray_out (encode_literals chunks)
              (length (concat chunks)) chunks
              (Lnd.init (length (concat chunks)))
              (length (encode_literals chunks)))
    as (_ & Hin & _);
    [ apply inv_init | exact Hchunks | reflexivity | simpl; lia | lia |].
  pose proof (inv_run stray_in stray_out (encode_literals chunks)
                (length (concat chunks)) (length (encode_literals chunks))
                _ (inv_init _)) as (Hlen & _).
  apply list_eq. intros j.
  destruct (concat chunks !! j) as [x |] eqn:Hj.
  - exact (Hin j x Hj).
  - apply lookup_ge_None. apply lookup_ge_None in Hj. lia.
Qed.

End LndRoundTrip.

(** X6 on the literals ["AB"] and ["C"]. *)
Lemma literal_copies_decode_to_their_bytes_witness :
  Lnd.decompress_raw_data zero_in zero_out [0x01; 0x41; 0x42; 0x00; 0x43] 3
  = [0x41; 0x42; 0x43].
Proof.
  apply (literal_copies_decode_to_their_bytes zero_in zero_out
           [[0x41; 0x42]; [0x43]]).
  repeat constructor; simpl; lia.
Defined.

(** ** Decompressing into a shorter buffer *)

Section LndPrefix.

Import Lnd.

Local Open Scope nat_scope.

Variable stray_in : nat -> Z.
Variable stray_out : Z -> Z.
Variable input : list Z.
Variables n m : nat.
Hypothesis n_le_m : n <= m.

Local Abbreviation rel := (agree_upto n).

Ltac full_cases s b :=
  unfold Lnd.output_full;
  destruct (Nat.leb_spec n (output_ptr s)) as [Hs | Hs];
  destruct (Nat.leb_spec m (output_ptr b)) as [Hb | Hb].

Lemma agree_emit s b v w :
  rel s b -> output_ptr s < n -> output_ptr b < m -> v = w ->
  rel (emit v s) (emit w b).
Proof.
  intros [Hout [[Hp Hi] | [Hfull _]]] Hs Hb <-; [| lia].
  split; [| left; simpl; auto].
  simpl. rewrite Hp, Hout. symmetry. apply take_insert_lt. lia.
Qed.

Lemma agree_long_emit s b w :
  rel s b -> n <= output_ptr s -> rel s (emit w b).
Proof.
  intros [Hout Hpos] Hs. split.
  - simpl. rewrite Hout. symmetry. apply take_insert_ge. destruct Hpos; lia.
  - right. simpl. destruct Hpos; lia.
Qed.

Lemma agree_moved s b s' b' :
  rel s b ->
  output s' = output s -> output b' = output b ->
  output_ptr s' = output_ptr s -> output_ptr b' = output_ptr b ->
  (input_ptr s = input_ptr b -> input_ptr s' = input_ptr b') ->
  rel s' b'.
Proof.
  intros [Hout Hpos] Hos Hob Hps Hpb Hi. split; [congruence |].
  destruct Hpos as [[Hp Hip] | Hfull]; [left | right]; split; try lia; auto.
Qed.

Lemma agree_long_moved s b b' :
  rel s b -> n <= output_ptr s ->
  output b' = output b -> output_ptr b' = output_ptr b -> rel s b'.
Proof.
  intros [Hout Hpos] Hs Hob Hpb. split; [congruence |].
  right. destruct Hpos as [[Hp _] | Hfull]; lia.
Qed.

Lemma agree_sync s b :
  rel s b -> output_ptr s < n ->
  output_ptr s = output_ptr b /\ input_ptr s = input_ptr b.
Proof. intros [_ [H | H]] Hs; [exact H | lia]. Qed.

Lemma agree_full s b : rel s b -> n <= output_ptr s -> n <= output_ptr b.
Proof. intros [_ [[H _] | H]] Hs; lia. Qed.

Lemma fill_loop_full k s :
  n <= output_ptr s -> fill_loop stray_in input n k s = s.
Proof.
  intros Hs. destruct k; cbn [fill_loop]; [reflexivity |].
  unfold Lnd.output_full. now rewrite (proj2 (Nat.leb_le _ _) Hs).
Qed.

Lemma literal_loop_full k s :
  n <= output_ptr s -> literal_loop stray_in input n k s = s.
Proof.
  intros Hs. destruct k; cbn [literal_loop]; [reflexivity |].
  unfold Lnd.output_full. now rewrite (proj2 (Nat.leb_le _ _) Hs).
Qed.

Lemma copy_loop_full d k s :
  n <= output_ptr s -> copy_loop stray_out n d k s = s.
Proof.
  intros Hs. destruct k; cbn [copy_loop]; [reflexivity |].
  unfold Lnd.output_full. now rewrite (proj2 (Nat.leb_le _ _) Hs).
Qed.

Lemma blend_window_full i k s :
  n <= output_ptr s -> blend_window stray_in input n i k s = s.
Proof.
  intros Hs. destruct k; cbn [blend_window]; [reflexivity |].
  unfold Lnd.output_full. now rewrite (proj2 (Nat.leb_le _ _) Hs).
Qed.

Lemma agree_fill_loop k : forall s b,
  rel s b ->
  rel (fill_loop stray_in input n k s) (fill_loop stray_in input m k b).
Proof.
  induction k as [| k IH]; intros s b R; [exact R |].
  cbn [fill_loop]. full_cases s b.
  - exact R.
  - rewrite <- (fill_loop_full k s Hs) at 1.
    cbn [peek]. apply IH. apply agree_long_emit; [| exact Hs].
    eapply agree_moved; [exact R | reflexivity ..| auto].
  - destruct (agree_sync s b R Hs). lia.
  - destruct (agree_sync s b R Hs) as [Hp Hi].
    cbn [peek]. apply IH. apply agree_emit; cbn [output_ptr input_ptr];
      [| lia | lia | now rewrite Hi].
    eapply agree_moved; [exact R | reflexivity ..| auto].
Qed.

Lemma agree_literal_loop k : forall s b,
  rel s b ->
  rel (literal_loop stray_in input n k s) (literal_loop stray_in input m k b).
Proof.
  induction k as [| k IH]; intros s b R; [exact R |].
  cbn [literal_loop]. full_cases s b.
  - exact R.
  - rewrite <- (literal_loop_full k s Hs) at 1.
    cbn [read_next peek advance]. apply IH.
    apply agree_long_emit; [| exact Hs].
    eapply agree_long_moved; [exact R | exact Hs | reflexivity ..].
  - destruct (agree_sync s b R Hs). lia.
  - destruct (agree_sync s b R Hs) as [Hp Hi].
    cbn [read_next peek advance]. apply IH.
    apply agree_emit; cbn [output_ptr input_ptr advance];
      [| lia | lia | now rewrite Hi].
    eapply agree_moved; [exact R | reflexivity ..| cbn; auto].
Qed.

Lemma agree_look_back d s b :
  rel s b -> output_ptr s < n -> (0 <= d)%Z ->
  look_back stray_out d s = look_back stray_out d b.
Proof.
  intros R Hs Hd. destruct (agree_sync s b R Hs) as [Hp Hi].
  destruct R as [Hout _]. unfold look_back. rewrite Hp, Hout.
  destruct (Z.leb_spec 0 (Z.of_nat (output_ptr b) - d)); [| reflexivity].
  rewrite lookup_take_lt by lia. reflexivity.
Qed.

Lemma agree_copy_loop d k : forall s b,
  (0 <= d)%Z -> rel s b ->
  rel (copy_loop stray_out n d k s) (copy_loop stray_out m d k b).
Proof.
  induction k as [| k IH]; intros s b Hd R; [exact R |].
  cbn [copy_loop]. full_cases s b.
  - exact R.
  - rewrite <- (copy_loop_full d k s Hs) at 1.
    apply IH; [exact Hd |]. apply agree_long_emit; [exact R | exact Hs].
  - destruct (agree_sync s b R Hs). lia.
  - apply IH; [exact Hd |].
    apply agree_emit; [exact R | lia | lia |].
    now apply agree_look_back.
Qed.

Lemma agree_current s b :
  rel s b -> output_ptr s < n -> current s = current b.
Proof.
  intros R Hs. destruct (agree_sync s b R Hs) as [Hp Hi].
  destruct R as [Hout _]. unfold current. rewrite Hp, Hout.
  rewrite lookup_take_lt by lia. reflexivity.
Qed.

Lemma agree_blend_window k : forall i s b,
  rel s b ->
  rel (blend_window stray_in input n i k s)
      (blend_window stray_in input m i k b).
Proof.
  induction k as [| k IH]; intros i s b R; [exact R |].
  cbn [blend_window]. full_cases s b.
  - exact R.
  - rewrite <- (blend_window_full (S i) k s Hs) at 1.
    cbn [peek]. apply IH. apply agree_long_emit; [| exact Hs].
    eapply agree_moved; [exact R | reflexivity ..| auto].
  - destruct (agree_sync s b R Hs). lia.
  - destruct (agree_sync s b R Hs) as [Hp Hi].
    assert (R1 : rel (snd (peek stray_in input i s))
                     (snd (peek stray_in input i b)))
      by (eapply agree_moved; [exact R | reflexivity ..| auto]).
    cbn [peek snd] in *. apply IH.
    apply agree_emit; cbn [output_ptr input_ptr]; [exact R1 | lia | lia |].
    rewrite (agree_current _ _ R1 Hs), Hi. reflexivity.
Qed.

Lemma agree_blend_loop size r : forall s b,
  rel s b ->
  rel (blend_loop stray_in input n r size s)
      (blend_loop stray_in input m r size b).
Proof.
  induction r as [| r IH]; intros s b R; [exact R |].
  cbn [blend_loop]. apply IH. now apply agree_blend_window.
Qed.

Lemma agree_fetched s b :
  rel s b ->
  rel (fetched stray_in input s) (fetched stray_in input b).
Proof.
  intros R. eapply agree_moved; [exact R | reflexivity ..|].
  cbn. auto.
Qed.

Lemma agree_advance k s b : rel s b -> rel (advance k s) (advance k b).
Proof.
  intros R. eapply agree_moved; [exact R | reflexivity ..|]. cbn. auto.
Qed.

(** One turn of the loop keeps two decompressions that stand at the same
    place in agreement. *)
Lemma read_next_fetched s :
  read_next stray_in input s
  = (input_at stray_in input (input_ptr s), fetched stray_in input s).
Proof. reflexivity. Qed.

Lemma agree_step s b :
  rel s b -> output_ptr s = output_ptr b -> input_ptr s = input_ptr b ->
  rel (step stray_in stray_out input n s) (step stray_in stray_out input m b).
Proof.
  intros R Hp Hi.
  rewrite !(step_unfold stray_in stray_out input). cbn zeta. rewrite Hi.
  set (byte := input_at stray_in input (input_ptr b)).
  pose proof (agree_fetched s b R) as R1.
  assert (Hi1 : input_ptr (fetched stray_in input s)
                = input_ptr (fetched stray_in input b)) by (cbn; lia).
  set (s1 := fetched stray_in input s) in *.
  set (b1 := fetched stray_in input b) in *.
  pose proof (agree_fetched s1 b1 R1) as R2.
  destruct (nonzero (Z.land byte 128)), (nonzero (Z.land byte 64)).
  - unfold fill_run. destruct (nonzero (Z.land byte 32)).
    + rewrite !read_next_fetched, Hi1.
      apply agree_advance, agree_fill_loop. exact R2.
    + apply agree_advance, agree_fill_loop. exact R1.
  - unfold back_reference. rewrite !read_next_fetched, Hi1.
    apply agree_copy_loop; [| exact R2].
    destruct (Z.ltb_spec
      (Z.shiftl (Z.land byte 3) 8 + input_at stray_in input (input_ptr b1)
       + 1) 0); lia.
  - unfold blend. rewrite !read_next_fetched, Hi1.
    apply agree_advance, agree_blend_loop. exact R2.
  - unfold literal. destruct (nonzero (Z.land byte 32)).
    + rewrite !read_next_fetched, Hi1.
      apply agree_literal_loop. exact R2.
    + apply agree_literal_loop. exact R1.
Qed.

Lemma agree_run fuel : forall s b,
  inv m b ->
  rel s b ->
  rel (run stray_in stray_out input n fuel s)
      (run stray_in stray_out input m fuel b).
Proof.
  induction fuel as [| fuel IH]; intros s b Hinv R; [exact R |].
  cbn [run]. unfold Lnd.running at 1.
  destruct (Nat.ltb_spec (output_ptr s) n) as [Hs | Hs]; cbn [andb].
  - destruct (agree_sync s b R Hs) as [Hp Hi].
    unfold Lnd.running. rewrite <- Hp, <- Hi.
    rewrite (proj2 (Nat.ltb_lt (output_ptr s) m)) by lia. cbn [andb].
    destruct (input_ptr s <? length input); [| exact R].
    apply IH; [now apply inv_step | now apply agree_step].
  - pose proof (agree_full s b R Hs) as Hb.
    change (rel s (run stray_in stray_out input m (S fuel) b)).
    destruct R as [Hout _]. split.
    + rewrite Hout. apply list_eq. intros k.
      destruct (decide (k < n)) as [Hk | Hk].
      * rewrite !lookup_take_lt by exact Hk. symmetry.
        apply (run_keeps stray_in stray_out input m); [exact Hinv | lia].
      * rewrite !lookup_take_ge by lia. reflexivity.
    + right. split; [exact Hs |].
      destruct n as [| n'] eqn:En; [lia |].
      destruct (run_keeps stray_in stray_out input m (S fuel) b n' Hinv
                  ltac:(lia)) as [_ Hle]. lia.
Qed.

(** X7.  Decompressing into a buffer of [n] bytes gives the first [n]
    bytes of decompressing the same input into any longer buffer: the size
    announced by the file only cuts the output, it never changes a byte.
    Reads outside a buffer are taken to return the same bytes in both
    runs. *)
Theorem decompress_into_a_shorter_buffer_is_a_prefix :
  decompress_raw_data stray_in stray_out input n
  = take n (decompress_raw_data stray_in stray_out input m).
Proof.
  unfold decompress_raw_data, decompress_final.
  apply (agree_run (length input) (init n) (init m)); [apply inv_init |].
  split; [| left; split; reflexivity].
  unfold init, bstr_sized. cbn [output]. rewrite take_replicate.
  f_equal. lia.
Qed.

End LndPrefix.

(** X7 on [sample], cut after two bytes and after five. *)
Lemma decompress_into_a_shorter_buffer_is_a_prefix_witness :
  Lnd.decompress_raw_data zero_in zero_out sample 2
  = take 2 (Lnd.decompress_raw_data zero_in zero_out sample 5).
Proof.
  apply (decompress_into_a_shorter_buffer_is_a_prefix zero_in zero_out sample
           2 5).
  lia.
Defined.

(** ** The output holds bytes *)

Section LndBytes.

Import Lnd.

Local Open Scope nat_scope.

Variable stray_in : nat -> Z.
Variable stray_out : Z -> Z.
Variable input : list Z.
Variable size_orig : nat.

Hypothesis input_bytes : Forall is_byte input.
Hypothesis stray_in_bytes : forall i, is_byte (stray_in i).
Hypothesis stray_out_bytes : forall j, is_byte (stray_out j).

Local Abbreviation bytes s := (Forall is_byte (output s)).

Lemma input_at_byte i : is_byte (input_at stray_in input i).
Proof.
  unfold input_at. destruct (input !! i) as [x |] eqn:E; [| apply stray_in_bytes].
  exact (proj1 (Forall_lookup _ _) input_bytes _ _ E).
Qed.

Lemma u8_byte x : is_byte (u8 x).
Proof. unfold is_byte, u8. apply Z.mod_pos_bound. lia. Qed.

Lemma look_back_byte d s : bytes s -> is_byte (look_back stray_out d s).
Proof.
  intros B. unfold look_back. destruct (_ <=? _)%Z; [| apply stray_out_bytes].
  destruct (output s !! _) as [x |] eqn:E; [| apply stray_out_bytes].
  exact (proj1 (Forall_lookup _ _) B _ _ E).
Qed.

Lemma emit_bytes v s : bytes s -> is_byte v -> bytes (emit v s).
Proof. intros B Hv. cbn [emit output]. now apply Forall_insert. Qed.

Lemma fill_loop_bytes k : forall s,
  bytes s -> bytes (fill_loop stray_in input size_orig k s).
Proof.
  induction k as [| k IH]; intros s B; cbn [fill_loop]; [exact B |].
  destruct (output_full size_orig s); [exact B |].
  cbn [peek]. apply IH. apply emit_bytes; [exact B | apply input_at_byte].
Qed.

Lemma literal_loop_bytes k : forall s,
  bytes s -> bytes (literal_loop stray_in input size_orig k s).
Proof.
  induction k as [| k IH]; intros s B; cbn [literal_loop]; [exact B |].
  destruct (output_full size_orig s); [exact B |].
  cbn [read_next peek]. apply IH.
  apply emit_bytes; [exact B | apply input_at_byte].
Qed.

Lemma copy_loop_bytes d k : forall s,
  bytes s -> bytes (copy_loop stray_out size_orig d k s).
Proof.
  induction k as [| k IH]; intros s B; cbn [copy_loop]; [exact B |].
  destruct (output_full size_orig s); [exact B |].
  apply IH. apply emit_bytes; [exact B | now apply look_back_byte].
Qed.

Lemma blend_window_bytes k : forall i s,
  bytes s -> bytes (blend_window stray_in input size_orig i k s).
Proof.
  induction k as [| k IH]; intros i s B; cbn [blend_window]; [exact B |].
  destruct (output_full size_orig s); [exact B |].
  cbn [peek]. apply IH. apply emit_bytes; [exact B | apply u8_byte].
Qed.

Lemma blend_loop_bytes size r : forall s,
  bytes s -> bytes (blend_loop stray_in input size_orig r size s).
Proof.
  induction r as [| r IH]; intros s B; cbn [blend_loop]; [exact B |].
  apply IH. now apply blend_window_bytes.
Qed.

Lemma step_bytes s : bytes s -> bytes (step stray_in stray_out input size_orig s).
Proof.
  intros B. rewrite (step_unfold stray_in stray_out input). cbn zeta.
  set (byte := input_at stray_in input (input_ptr s)).
  assert (B1 : bytes (fetched stray_in input s)) by exact B.
  assert (B2 : bytes (fetched stray_in input (fetched stray_in input s)))
    by exact B.
  destruct (nonzero (Z.land byte 128)), (nonzero (Z.land byte 64)).
  - unfold fill_run. destruct (nonzero (Z.land byte 32)).
    + exact (fill_loop_bytes _ _ B2).
    + exact (fill_loop_bytes _ _ B1).
  - unfold back_reference. exact (copy_loop_bytes _ _ _ B2).
  - unfold blend. exact (blend_loop_bytes _ _ _ B2).
  - unfold literal. destruct (nonzero (Z.land byte 32)).
    + exact (literal_loop_bytes _ _ B2).
    + exact (literal_loop_bytes _ _ B1).
Qed.

Lemma run_bytes fuel : forall s,
  bytes s -> bytes (run stray_in stray_out input size_orig fuel s).
Proof.
  induction fuel as [| fuel IH]; intros s B; cbn [run]; [exact B |].
  destruct (running input size_orig s); [| exact B].
  apply IH. now apply step_bytes.
Qed.

(** X8.  When the input holds bytes, and so does whatever a read outside
    a buffer returns, every value of the output is a byte: the sums of the
    additive blend, the only values that could leave the range, wrap to
    eight bits. *)
Theorem decompress_returns_bytes :
  Forall is_byte (decompress_raw_data stray_in stray_out input size_orig).
Proof.
  unfold decompress_raw_data, decompress_final. apply run_bytes.
  cbn [init output]. unfold bstr_sized. apply Forall_replicate.
  unfold is_byte. lia.
Qed.

End LndBytes.

(** X8 on [sample]. *)
Lemma decompress_returns_bytes_witness :
  Forall is_byte (Lnd.decompress_raw_data zero_in zero_out sample 20).
Proof.
  apply (decompress_returns_bytes zero_in zero_out sample 20).
  - repeat constructor; unfold is_byte; lia.
  - intros i. unfold is_byte, zero_in. lia.
  - intros j. unfold is_byte, zero_out. lia.
Defined.

(** * Further properties of the lnd file decoder *)

Section LndFileMore.

Local Open Scope nat_scope.

Variable stray_in : nat -> Z.
Variable stray_out : Z -> Z.

Lemma seek_eof n c : Io.size c < n -> Io.seek n c = Err EofError.
Proof. intros H. unfold Io.seek. now rewrite (proj2 (Nat.leb_gt _ _) H). Qed.

(** X9.  [decode_impl] needs the 16 bytes of the header and nothing else:
    on a shorter file it throws [EofError]; on any other, wherever the
    cursor stands, it returns a file of the given name whose content has
    exactly the announced number of bytes, and leaves the cursor at the
    end. *)
Theorem lnd_decode_needs_the_sixteen_header_bytes
    (file_name : list Z) (file : Io.io) :
  (Io.size file < 16 ->
   Lnd.decode_impl stray_in stray_out file_name file = Err EofError) /\
  (16 <= Io.size file ->
   exists out file',
     Lnd.decode_impl stray_in stray_out file_name file = Ok (out, file') /\
     name out = file_name /\
     length (content out)
       = Z.to_nat (Io.le (take 4 (drop 8 (Io.data file)))) /\
     Io.pos file' = Io.size file).
Proof.
  split.
  - intros Hshort.
    unfold Lnd.decode_impl, bind, Io.skip, Io.read_u32_le.
    change (length Lnd.magic) with 4.
    destruct (le_lt_dec 4 (Io.size file));
      [rewrite seek_ok by lia | now rewrite seek_eof by lia].
    cbn [Io.pos].
    destruct (le_lt_dec 8 (Io.size file));
      [ rewrite seek_ok by (unfold Io.size in *; simpl; lia)
      | now rewrite seek_eof by (unfold Io.size in *; simpl; lia) ].
    destruct (le_lt_dec 12 (Io.size file));
      [ rewrite read_le_ok by (unfold Io.size in *; simpl; lia)
      | now rewrite read_le_eof by (unfold Io.size in *; simpl; lia) ].
    now rewrite seek_eof by (unfold Io.size in *; simpl; lia).
  - intros Hsize. eexists _, _.
    split; [apply (decode_impl_ok stray_in stray_out); exact Hsize |].
    split3; [reflexivity | | reflexivity].
    unfold decoded, content, Lnd.decompress_raw_data, Lnd.decompress_final.
    apply (inv_run stray_in stray_out). apply inv_init.
Qed.

End LndFileMore.

(** * Further properties of the XP3 archive decoder *)

Section Xp3More.

Local Open Scope nat_scope.

Import Xp3 Xp3Spec.

Variable zlib_inflate : list Z -> option (list Z).
Variable utf16le_to_utf8 : list Z -> option (list Z).
Variable set_decoder : list Z -> option (list Z -> Z -> list Z).

Local Abbreviation read_raw_table := (Xp3.read_raw_table zlib_inflate).
Local Abbreviation read_info_chunk := (Xp3.read_info_chunk utf16le_to_utf8).
Local Abbreviation read_segment := (Xp3.read_segment zlib_inflate).
Local Abbreviation segm_loop := (Xp3.segm_loop zlib_inflate).
Local Abbreviation read_data_from_segm_chunk :=
  (Xp3.read_data_from_segm_chunk zlib_inflate).
Local Abbreviation read_file := (Xp3.read_file zlib_inflate utf16le_to_utf8).
Local Abbreviation unpack_loop := (Xp3.unpack_loop zlib_inflate utf16le_to_utf8).
Local Abbreviation unpack_internal :=
  (Xp3.unpack_internal zlib_inflate utf16le_to_utf8 set_decoder).
Local Abbreviation reaches := (Xp3Spec.reaches zlib_inflate utf16le_to_utf8).

(** ** Recognising an archive *)

(** X10.  [is_recognized_internal] compares the 11 bytes under the cursor
    with the signature and leaves the cursor behind them; with fewer than
    11 bytes left it throws [EofError].  An archive whose eleventh byte is
    not 1 is not recognised, whatever its first ten bytes are. *)
Theorem xp3_is_recognized_by_its_eleven_byte_signature (arc : Io.io) :
  (Io.size arc < Io.pos arc + 11 ->
   is_recognized_internal arc = Err EofError) /\
  (Io.pos arc + 11 <= Io.size arc ->
   is_recognized_internal arc
   = Ok (bool_decide (bytes_at 0 11 arc = xp3_magic), moved 11 arc)) /\
  (Io.pos arc + 11 <= Io.size arc -> bytes_at 10 1 arc <> [1%Z] ->
   is_recognized_internal arc = Ok (false, moved 11 arc)).
Proof.
  assert (Hok : Io.pos arc + 11 <= Io.size arc ->
            is_recognized_internal arc
            = Ok (bool_decide (bytes_at 0 11 arc = xp3_magic), moved 11 arc)).
  { intros Hsize. unfold is_recognized_internal, bind.
    change (length xp3_magic) with 11. now rewrite read_ok by exact Hsize. }
  split3.
  - intros Hshort. unfold is_recognized_internal, bind.
    change (length xp3_magic) with 11. now rewrite read_eof by exact Hshort.
  - exact Hok.
  - intros Hsize Hlast. rewrite Hok by exact Hsize.
    rewrite bool_decide_eq_false_2; [reflexivity |].
    intros Hmagic. apply Hlast. unfold bytes_at in *.
    rewrite Nat.add_0_r in Hmagic.
    rewrite <- drop_drop, (take_drop_commute _ 1 10). cbn [Nat.add].
    now rewrite Hmagic.
Qed.

(** ** The version check *)

Lemma detect_version_short c :
  Io.size c < 23 -> detect_version c = Err EofError.
Proof.
  intros Hshort. unfold detect_version, bind, Io.tell, Io.read_u32_le.
  destruct (le_lt_dec 19 (Io.size c));
    [rewrite seek_ok by lia | now rewrite seek_eof by lia].
  now rewrite read_le_eof by (unfold Io.size in *; simpl; lia).
Qed.

Lemma header_tail_avoids (m : Io.M Z) arc_name c :
  avoids version_error m ->
  snd (match (table_offset <- m ;;
              Io.seek (Z.to_nat table_offset) ;;; read_raw_table) c with
       | Err e => ([], Some e)
       | Ok (table, arc') =>
           unpack_loop (Io.size table) (set_decoder arc_name)
                       {| table_io := table; arc_io := arc' |} []
       end) <> Some version_error.
Proof.
  intros Hm.
  destruct ((table_offset <- m ;;
             Io.seek (Z.to_nat table_offset) ;;; read_raw_table) c)
    as [[table arc'] | e] eqn:E.
  - apply unpack_loop_avoids.
  - cbn [snd]. intros [= ->]. revert E.
    apply avoids_bind; [exact Hm |]. intros offset.
    apply avoids_bind; [| intros; apply read_raw_table_avoids].
    apply avoids_eof_only; [discriminate | apply eof_only_seek].
Qed.

(** X11.  Unpacking an archive from its first byte never throws "Unexpected
    XP3 version": the four bytes [detect_version] reads at offset 19 are the
    four bytes [get_table_offset] then reads as the minor version, so the
    minor version is 1 whenever the version is 2. *)
Theorem xp3_version_check_cannot_fail_from_the_first_byte
    (arc_name : list Z) (arc : Io.io) :
  Io.pos arc = 0 ->
  snd (unpack_internal arc_name arc) <> Some version_error.
Proof.
  intros Hpos. unfold Xp3.unpack_internal. cbv zeta.
  change (length xp3_magic) with 11. unfold bind at 1.
  destruct (le_lt_dec 23 (Io.size arc)) as [Hsize | Hshort].
  - rewrite skip_ok by lia. unfold bind at 1.
    rewrite detect_version_spec by (unfold Io.size in *; simpl; lia).
    cbn [moved Io.data].
    destruct (Z.eqb_spec (Io.le (take 4 (drop 19 (Io.data arc)))) 1)
      as [Hmarker | Hmarker].
    + unfold bind at 1.
      rewrite get_table_offset_two by (unfold Io.size in *; simpl; lia).
      assert (Hsame : bytes_at 8 4 (moved 11 arc)
                      = take 4 (drop 19 (Io.data arc))).
      { unfold bytes_at, moved. cbn [Io.data Io.pos]. now rewrite Hpos. }
      rewrite Hsame, Hmarker. cbn [Z.eqb Pos.eqb].
      apply (header_tail_avoids
               (fun c => follow_additional_header
                           (Io.le (bytes_at 0 8 (moved 11 arc))) c)
               arc_name (moved 12 (moved 11 arc))).
      intros c. apply follow_additional_header_avoids.
    + apply (header_tail_avoids (get_table_offset 1)).
      cbn [get_table_offset Z.eqb Pos.eqb].
      apply avoids_eof_only; [discriminate | apply eof_only_read_le].
  - destruct (Io.skip 11 arc) as [[[] arc1] | e] eqn:E.
    + unfold bind at 1.
      assert (Hdata : Io.size arc1 = Io.size arc).
      { revert E. unfold Io.skip, Io.seek. destruct (_ <=? _); [| discriminate].
        now intros [= <-]. }
      rewrite detect_version_short by lia. discriminate.
    + apply eof_only_skip in E. subst e. discriminate.
Qed.

(** ** The errors of an unpacking *)





















(** ** An entry that parses *)

(** X13.  The counterpart of the length check: the table cursor of [c]
    stands on a [File] chunk that declares [declared] bytes, the three
    sub-chunks that follow parse and take exactly [declared] bytes of the
    table.  Then [read_file] returns a file named by the [info] sub-chunk
    whose content is the data of the [segm] sub-chunk, passed through the
    filter with the key of the [adlr] sub-chunk when there is a filter; the
    sizes and the flags of the [info] sub-chunk play no part. *)
Theorem xp3_entry_is_named_by_info_and_filtered_with_the_adlr_key
    (filter_func : option (list Z -> Z -> list Z))
    (c c2 c3 c4 : cursors) (info : InfoChunk) (data : list Z) (key : Z) :
  Io.pos (table_io c) + 12 <= Io.size (table_io c) ->
  bytes_at 0 4 (table_io c) = file_magic ->
  let declared := Io.le (bytes_at 4 8 (table_io c)) in
  on_table read_info_chunk (past_chunk_header c) = Ok (info, c2) ->
  read_data_from_segm_chunk c2 = Ok (data, c3) ->
  on_table read_key_from_adlr_chunk c3 = Ok (key, c4) ->
  Z.of_nat (Io.pos (table_io c4) - Io.pos (table_io (past_chunk_header c)))
    = declared ->
  read_file filter_func c
  = Ok ({| name := info_name info;
           content := match filter_func with
                      | Some decode => decode data key
                      | None => data
                      end |}, c4).
Proof.
  intros Hsize Hmagic declared Hinfo Hsegm Hadlr Hspan.
  destruct c as [t r]. unfold past_chunk_header in *.
  cbn [table_io arc_io] in *.
  unfold Xp3.read_file, Io.read_u64_le. unfold bind at 1.
  change (length file_magic) with 4.
  rewrite (on_table_ok _ _ _ _ _ (read_ok 4 t ltac:(lia))).
  rewrite Hmagic, bool_decide_eq_false_2 by (intros H; now apply H).
  unfold bind at 1.
  rewrite (on_table_ok _ _ _ _ _ (read_le_ok 8 (moved 4 t)
             ltac:(unfold Io.size in *; simpl; lia))).
  rewrite bytes_at_moved, moved_moved.
  cbn [Nat.add]. fold declared.
  unfold bind at 1. unfold on_table at 1, Io.tell. cbn [table_io arc_io].
  unfold bind at 1. rewrite Hinfo.
  unfold bind at 1. rewrite Hsegm.
  unfold bind at 1. rewrite Hadlr.
  unfold bind at 1. unfold on_table at 1, Io.tell.
  rewrite Hspan, Z.eqb_refl. cbn [negb]. unfold ret.
  now destruct c4.
Qed.

(** ** The loop over the table *)

Lemma reaches_extends filter_func c saved c' saved' :
  reaches filter_func c saved c' saved' ->
  exists more, saved' = saved ++ more /\
    Io.data (table_io c') = Io.data (table_io c) /\
    Io.pos (table_io c) <= Io.pos (table_io c').
Proof.
  induction 1 as [c saved | c saved file c1 c' saved' Hlt Hok _ IH].
  - exists []. now rewrite app_nil_r.
  - destruct IH as (more & -> & Hd & Hp).
    destruct (read_file_grows _ _ _ _ _ _ Hok) as [Hd1 Hp1].
    exists (file :: more). split3.
    + now rewrite <- app_assoc.
    + congruence.
    + lia.
Qed.

Lemma unpack_loop_reaches fuel filter_func : forall c saved,
  Io.size (table_io c) - Io.pos (table_io c) <= fuel ->
  exists c' saved',
    reaches filter_func c saved c' saved' /\
    fst (unpack_loop fuel filter_func c saved) = saved' /\
    match snd (unpack_loop fuel filter_func c saved) with
    | None => Io.size (table_io c') <= Io.pos (table_io c')
    | Some e => Io.pos (table_io c') < Io.size (table_io c') /\
                read_file filter_func c' = Err e
    end.
Proof.
  induction fuel as [| fuel IH]; intros c saved Hfuel.
  - exists c, saved. split3; [constructor | reflexivity |].
    cbn [Xp3.unpack_loop snd]. lia.
  - rewrite unpack_loop_S.
    destruct (Nat.ltb_spec (Io.pos (table_io c)) (Io.size (table_io c)))
      as [Hlt | Hge].
    + destruct (read_file filter_func c) as [[file c1] | e] eqn:E.
      * destruct (read_file_progress _ _ _ _ _ _ E) as [Hs Hp].
        destruct (IH c1 (saved ++ [file]) ltac:(lia))
          as (c' & saved' & Hreach & Hfst & Hsnd).
        exists c', saved'. split3; [| exact Hfst | exact Hsnd].
        eapply reaches_next; eauto.
      * exists c, saved. split3; [constructor | reflexivity |].
        cbn [snd]. auto.
    + exists c, saved. split3; [constructor | reflexivity |].
      cbn [snd]. exact Hge.
Qed.

(** X14.  The loop of [unpack_internal] reads entry after entry and stops
    at the end of the table or at the first entry that throws, with that
    error.  The saver then holds what it held before, followed by the
    entries read, in the order of the table; the table itself is not
    modified and its cursor never moves back. *)
Theorem xp3_unpack_loop_stops_at_the_table_end_or_the_first_error
    (filter_func : option (list Z -> Z -> list Z))
    (c : cursors) (saved : list File) (extra : nat) :
  let fuel := Io.size (table_io c) - Io.pos (table_io c) + extra in
  exists c' more,
    reaches filter_func c saved c' (saved ++ more) /\
    fst (unpack_loop fuel filter_func c saved) = saved ++ more /\
    Io.data (table_io c') = Io.data (table_io c) /\
    Io.pos (table_io c) <= Io.pos (table_io c') /\
    match snd (unpack_loop fuel filter_func c saved) with
    | None => Io.size (table_io c') <= Io.pos (table_io c')
    | Some e => Io.pos (table_io c') < Io.size (table_io c') /\
                read_file filter_func c' = Err e
    end.
Proof.
  intros fuel.
  destruct (unpack_loop_reaches fuel filter_func c saved ltac:(unfold fuel; lia))
    as (c' & saved' & Hreach & Hfst & Hsnd).
  destruct (reaches_extends _ _ _ _ _ Hreach) as (more & -> & Hd & Hp).
  exists c', more. split; [exact Hreach |].
  split; [exact Hfst |]. split; [exact Hd |]. split; [exact Hp | exact Hsnd].
Qed.

(** ** The layout of the table header and of the [info] sub-chunk *)

(** X15.  [read_raw_table] reads a flag byte and an 8-byte size; a zero
    flag is followed by that many bytes, which are the table; any other
    flag is followed by an 8-byte original size, which is not used, and
    then by that many bytes, whose inflation is the table. *)
Theorem xp3_raw_table_is_stored_or_inflated (arc : Io.io) :
  let flag := Io.le (bytes_at 0 1 arc) in
  let size := Z.to_nat (Io.le (bytes_at 1 8 arc)) in
  Io.pos arc + (if nonzero flag then 17 else 9) + size <= Io.size arc ->
  read_raw_table arc
  = if nonzero flag then
      match zlib_inflate (bytes_at 17 size arc) with
      | Some table => Ok (Io.BufferedIO table, moved (17 + size) arc)
      | None => Err InflateError
      end
    else Ok (Io.BufferedIO (bytes_at 9 size arc), moved (9 + size) arc).
Proof.
  intros flag size Hroom.
  unfold Xp3.read_raw_table, Io.read_u8, Io.read_u64_le.
  unfold bind at 1. rewrite read_le_ok by (destruct (nonzero flag); lia).
  fold flag. unfold bind at 1.
  rewrite read_le_ok
    by (unfold Io.size in *; simpl; destruct (nonzero flag); lia).
  rewrite bytes_at_moved, moved_moved. cbn [Nat.add]. fold size.
  destruct (nonzero flag).
  - unfold bind at 1.
    rewrite read_le_ok by (unfold Io.size in *; simpl; lia).
    rewrite moved_moved. cbn [Nat.add]. unfold bind at 1.
    rewrite read_ok by (unfold Io.size in *; simpl; lia).
    rewrite bytes_at_moved, moved_moved, Nat.add_0_r.
    unfold bind, inflate. destruct (zlib_inflate _); reflexivity.
  - unfold bind at 1. unfold ret at 1. unfold bind at 1.
    rewrite read_ok by (unfold Io.size in *; simpl; lia).
    rewrite bytes_at_moved, moved_moved, Nat.add_0_r. reflexivity.
Qed.

(** X16.  [read_info_chunk] takes the flags, the two sizes and the name
    from fixed offsets behind the tag: the 8-byte size of the sub-chunk, at
    offset 4, is read and plays no part, neither in what is returned nor in
    where the cursor ends. *)
Theorem xp3_info_chunk_declared_size_is_not_used (t : Io.io) :
  bytes_at 0 4 t = info_magic ->
  let name_size := Z.to_nat (Io.le (bytes_at 32 2 t)) * 2 in
  Io.pos t + 34 + name_size <= Io.size t ->
  read_info_chunk t
  = match utf16le_to_utf8 (bytes_at 34 name_size t) with
    | Some utf8 =>
        Ok ({| flags := Io.le (bytes_at 12 4 t);
               file_size_original := Io.le (bytes_at 16 8 t);
               file_size_compressed := Io.le (bytes_at 24 8 t);
               info_name := utf8 |},
            moved (34 + name_size) t)
    | None => Err EncodingError
    end.
Proof.
  intros Hmagic name_size Hroom.
  unfold Xp3.read_info_chunk, Io.read_u16_le, Io.read_u32_le, Io.read_u64_le.
  change (length info_magic) with 4.
  unfold bind at 1. rewrite read_ok by lia.
  rewrite Hmagic, bool_decide_eq_false_2 by (intros H; now apply H).
  unfold bind at 1.
  rewrite read_le_ok by (unfold Io.size in *; simpl; lia).
  rewrite moved_moved. cbn [Nat.add]. unfold bind at 1.
  rewrite read_le_ok by (unfold Io.size in *; simpl; lia).
  rewrite bytes_at_moved, moved_moved. cbn [Nat.add]. unfold bind at 1.
  rewrite read_le_ok by (unfold Io.size in *; simpl; lia).
  rewrite bytes_at_moved, moved_moved. cbn [Nat.add]. unfold bind at 1.
  rewrite read_le_ok by (unfold Io.size in *; simpl; lia).
  rewrite bytes_at_moved, moved_moved. cbn [Nat.add]. unfold bind at 1.
  rewrite read_le_ok by (unfold Io.size in *; simpl; lia).
  rewrite bytes_at_moved, moved_moved. cbn [Nat.add]. fold name_size.
  unfold bind at 1.
  rewrite read_ok by (unfold Io.size in *; simpl; lia).
  rewrite bytes_at_moved, moved_moved, Nat.add_0_r.
  destruct (utf16le_to_utf8 _); reflexivity.
Qed.

(** ** From the header to the table *)

(** X17.  For an archive read from its first byte: the 8 bytes behind the
    signature are the offset of the table when the four bytes at offset 19
    do not hold 1; when they do, the 8 bytes are the offset of an
    additional header and the offset of the table is found 9 bytes into
    it.  The unpacking is then the loop over the entries of the table read
    at that offset, or the error of reading it; the signature is skipped,
    not compared. *)
Theorem xp3_unpack_reads_the_table_where_the_header_points
    (arc_name : list Z) (arc : Io.io) :
  Io.pos arc = 0 -> 23 <= Io.size arc ->
  let marker := Io.le (take 4 (drop 19 (Io.data arc))) in
  let first := Z.to_nat (Io.le (take 8 (drop 11 (Io.data arc)))) in
  let table_offset :=
    if (marker =? 1)%Z
    then Z.to_nat (Io.le (take 8 (drop (first + 9) (Io.data arc))))
    else first in
  (marker = 1%Z -> first + 17 <= Io.size arc) ->
  table_offset <= Io.size arc ->
  unpack_internal arc_name arc
  = match read_raw_table {| Io.data := Io.data arc; Io.pos := table_offset |}
    with
    | Ok (table, arc') =>
        unpack_loop (Io.size table) (set_decoder arc_name)
                    {| table_io := table; arc_io := arc' |} []
    | Err e => ([], Some e)
    end.
Proof.
  intros Hpos Hsize marker first table_offset Htwo Htable.
  destruct arc as [data pos]. unfold Io.size in Hsize, Htwo, Htable.
  cbn [Io.pos Io.data] in *. subst pos.
  unfold Xp3.unpack_internal. cbv zeta.
  change (length xp3_magic) with 11. unfold bind at 1.
  rewrite skip_ok by (unfold Io.size; simpl; lia). unfold bind at 1.
  rewrite detect_version_spec by (unfold Io.size in *; simpl; lia).
  cbn [moved Io.data Io.pos Nat.add]. fold marker. unfold bind at 1.
  unfold table_offset in *. clear table_offset.
  destruct (Z.eqb_spec marker 1) as [Hmarker | Hmarker].
  - specialize (Htwo Hmarker).
    rewrite get_table_offset_two by (unfold Io.size in *; simpl; lia).
    unfold bytes_at, moved. cbn [Io.data Io.pos Nat.add].
    fold marker. rewrite Hmarker. cbn [Z.eqb Pos.eqb].
    fold first. unfold follow_additional_header, bind, Io.read_u64_le.
    rewrite seek_ok by (unfold Io.size; simpl; lia).
    rewrite skip_ok by (unfold Io.size in *; simpl; lia).
    rewrite skip_ok by (unfold Io.size in *; simpl; lia).
    rewrite read_le_ok by (unfold Io.size in *; simpl; lia).
    unfold bytes_at, moved. cbn [Io.data Io.pos].
    fold first. replace (first + 1 + 8 + 0) with (first + 9) by lia.
    rewrite seek_ok by (unfold Io.size; simpl; lia). reflexivity.
  - cbn [get_table_offset Z.eqb Pos.eqb]. unfold Io.read_u64_le.
    rewrite read_le_ok by (unfold Io.size in *; simpl; lia).
    unfold bytes_at, moved, bind. cbn [Io.data Io.pos Nat.add]. fold first.
    rewrite seek_ok by (unfold Io.size; simpl; lia). reflexivity.
Qed.

End Xp3More.

(** X11 on the bytes of [version_two_archive] read from the first one: the
    marker at offset 19 is 1, and so is the minor version. *)
Lemma xp3_version_check_cannot_fail_from_the_first_byte_witness :
  Io.le (take 4 (drop 19 (Io.data version_two_archive))) = 1%Z /\
  snd (Xp3.unpack_internal no_inflate toy_utf8 no_filter [116]
         (Io.BufferedIO (Io.data version_two_archive)))
  <> Some version_error.
Proof.
  split; [reflexivity |].
  apply (xp3_version_check_cannot_fail_from_the_first_byte
           no_inflate toy_utf8 no_filter).
  reflexivity.
Defined.

(** X13 on the entry of the toy archive, with a filter that appends the
    key to the data. *)
Lemma xp3_entry_is_named_by_info_and_filtered_with_the_adlr_key_witness :
  Xp3.read_file no_inflate toy_utf8 (Some (fun data key => data ++ [key]))
    (toy_cursors 92 0)
  = Ok ({| name := [97]; content := [10; 20; 30; 0xDEADBEEF] |},
        {| Xp3.table_io := {| Io.data := toy_table 92; Io.pos := 104 |};
           Xp3.arc_io := {| Io.data := toy_archive 92; Io.pos := 26 |} |}).
Proof.
  apply (xp3_entry_is_named_by_info_and_filtered_with_the_adlr_key
           no_inflate toy_utf8 (Some (fun data key => data ++ [key]))
           (toy_cursors 92 0)
           (toy_cursors 92 48)
           {| Xp3.table_io := {| Io.data := toy_table 92; Io.pos := 88 |};
              Xp3.arc_io := {| Io.data := toy_archive 92; Io.pos := 26 |} |}
           {| Xp3.table_io := {| Io.data := toy_table 92; Io.pos := 104 |};
              Xp3.arc_io := {| Io.data := toy_archive 92; Io.pos := 26 |} |}
           {| Xp3.flags := 0; Xp3.file_size_original := 3;
              Xp3.file_size_compressed := 3; Xp3.info_name := [97] |}
           [10; 20; 30] 0xDEADBEEF).
  - vm_compute. lia.
  - reflexivity.
  - vm_compute. reflexivity.
  - vm_compute. reflexivity.
  - vm_compute. reflexivity.
  - vm_compute. reflexivity.
Defined.

(** X15 on the table of the toy archive, stored at offset 26. *)
Lemma xp3_raw_table_is_stored_or_inflated_witness :
  Xp3.read_raw_table no_inflate {| Io.data := toy_archive 92; Io.pos := 26 |}
  = Ok (Io.BufferedIO (toy_table 92),
        {| Io.data := toy_archive 92; Io.pos := 139 |}).
Proof.
  rewrite (xp3_raw_table_is_stored_or_inflated no_inflate
             {| Io.data := toy_archive 92; Io.pos := 26 |})
    by (vm_compute; lia).
  reflexivity.
Defined.

(** X16 on the [info] sub-chunk of the toy table, 12 bytes into it; it
    declares 22 bytes where 24 follow its header. *)
Lemma xp3_info_chunk_declared_size_is_not_used_witness :
  Xp3.read_info_chunk toy_utf8 {| Io.data := toy_table 92; Io.pos := 12 |}
  = Ok ({| Xp3.flags := 0; Xp3.file_size_original := 3;
           Xp3.file_size_compressed := 3; Xp3.info_name := [97] |},
        {| Io.data := toy_table 92; Io.pos := 48 |}).
Proof.
  rewrite (xp3_info_chunk_declared_size_is_not_used toy_utf8
             {| Io.data := toy_table 92; Io.pos := 12 |} eq_refl)
    by (vm_compute; lia).
  reflexivity.
Defined.

(** X17 on the toy archive: no version marker, the table at offset 26. *)
Lemma xp3_unpack_reads_the_table_where_the_header_points_witness :
  Xp3.unpack_internal no_inflate toy_utf8 no_filter [116]
    (Io.BufferedIO (toy_archive 92))
  = match Xp3.read_raw_table no_inflate
            {| Io.data := toy_archive 92; Io.pos := 26 |} with
    | Ok (table, arc') =>
        Xp3.unpack_loop no_inflate toy_utf8 (Io.size table) None
          {| Xp3.table_io := table; Xp3.arc_io := arc' |} []
    | Err e => ([], Some e)
    end.
Proof.
  apply (xp3_unpack_reads_the_table_where_the_header_points
           no_inflate toy_utf8 no_filter [116] (Io.BufferedIO (toy_archive 92))).
  - reflexivity.
  - vm_compute. lia.
  - vm_compute. discriminate.
  - vm_compute. lia.
Defined.
